(** * Identifier nodes of the tree-shaking engine

    A shallow embedding of the class [Identifier] of the AST: temporal-dead-zone
    detection, the manual purity registry, effect queries, inclusion and
    declaration of identifiers, together with the properties the
    specification states about them. *)

From Stdlib Require Import ZArith String Bool Lia.
From stdpp Require Import base option gmap strings list relations.

Local Set Warnings "-register-all,-clear-no-such-hyp".

Open Scope Z_scope.
Open Scope string_scope.
Open Scope list_scope.

(** ** AST nodes

    Every node carries a [type] tag, a [start] offset and a [parent] link.
    JavaScript compares nodes by reference; [node_id] stands for that
    reference.  The parent chain of a node of a tree is finite, which the
    inductive type expresses. *)

Inductive Node : Type :=
  mkNode { node_id : nat; type : string; start : Z; parent : option Node }.

(** [s.includes(pat)] *)
Fixpoint includes (pat s : string) : bool :=
  String.prefix pat s
  || match s with
     | EmptyString => false
     | String _ rest => includes pat rest
     end.

(** [/^Program|Function/.test(s)]: the alternation binds weaker than the
    anchor, so the pattern accepts a string that starts with "Program" or
    that has "Function" anywhere. *)
Definition test_Program_or_Function (s : string) : bool :=
  String.prefix "Program" s || includes "Function" s.

(** [closestParentFunctionOrProgram]; [None] is the [null]/[undefined] that
    ends a parent chain without a match. *)
Fixpoint closestParentFunctionOrProgram (n : Node) : option Node :=
  if test_Program_or_Function (type n) then Some n
  else match parent n with
       | Some p => closestParentFunctionOrProgram p
       | None => None
       end.

(** [a === b] on two results of the walk: the same object, or both absent. *)
Definition same_node (a b : option Node) : bool :=
  match a, b with
  | Some x, Some y => Nat.eqb (node_id x) (node_id y)
  | None, None => true
  | _, _ => false
  end.

(** ** Object paths *)

Inductive ObjectPathKey : Type :=
  | StringKey (s : string)
  | UnknownKey
  | UnknownNonAccessorKey
  | UnknownInteger.

Definition ObjectPath := list ObjectPathKey.
Definition EMPTY_PATH : ObjectPath := [].

(** ** The manual purity registry

    [PureFunctions] objects: string keys lead to nested registries, the
    symbol key [PureFunctionKey] holds the optional flag. *)

Inductive PureFunctions : Type :=
  mkPureFunctions { pureFunctionKey : option bool;
                    segments : gmap string PureFunctions }.

(** Truthiness of an optional boolean property ([undefined] is falsy). *)
Definition truthy (flag : option bool) : bool := default false flag.

(** [registry[segment]]: only string keys are own properties besides the
    flag symbol, so the symbols of a path find nothing. *)
Definition get_segment (registry : PureFunctions) (segment : ObjectPathKey)
  : option PureFunctions :=
  match segment with
  | StringKey s => segments registry !! s
  | _ => None
  end.

(** ** Variables *)

(** The classes the code tells apart with [instanceof]; subclasses of
    [LocalVariable] count as [LocalVariable]. *)
Inductive VariableClass : Type :=
  | LocalVariable
  | GlobalVariable
  | OtherVariable.

Definition VarRef := nat.
Definition ScopeRef := nat.

(** The fields of a [Variable] object that identifiers read and write. *)
Record VariableObject : Type := mkVariable {
  variableClass : VariableClass;
  kind : option string;
  declarations : list Node;
  initReached : bool
}.

Definition instanceof (v : VariableObject) (c : VariableClass) : bool :=
  match variableClass v, c with
  | LocalVariable, LocalVariable => true
  | GlobalVariable, GlobalVariable => true
  | OtherVariable, OtherVariable => true
  | _, _ => false
  end.

(** [const tdzVariableKinds = { __proto__: null, class: true, ... }] *)
Definition tdzVariableKinds : gmap string bool :=
  {[ "class" := true; "const" := true; "let" := true; "var" := true ]}.

(** [key in object] for an object without prototype. *)
Definition key_in (key : string) (object : gmap string bool) : bool :=
  bool_decide (is_Some (object !! key)).

(** ** Options and context *)

Record NormalizedTreeshakingOptions : Type := mkTreeshake {
  correctVarValueBeforeDeclaration : bool;
  unknownGlobalSideEffects : bool
}.

(** [treeshake: false | NormalizedTreeshakingOptions] *)
Record NormalizedInputOptions : Type := mkOptions {
  treeshake : option NormalizedTreeshakingOptions
}.

Record ModuleObject : Type := mkModule { id : string }.

Record AstContext : Type := mkAstContext {
  options : NormalizedInputOptions;
  manualPureFunctions : PureFunctions;
  module : ModuleObject
}.

(** ** Identifier objects *)

Record Identifier : Type := mkIdentifier {
  node : Node;
  name : string;
  scope : ScopeRef;
  context : AstContext;
  variable : option VarRef;
  isTDZAccess : option bool;
  deoptimized : bool;
  included : bool
}.

(** ** Expression entities and interactions *)

(** The entities an identifier stands for: the shared unknown entity, or
    a variable of the heap. *)
Inductive ExpressionEntity : Type :=
  | UNKNOWN_EXPRESSION
  | VariableEntity (v : VarRef).

Inductive InteractionType : Type :=
  | INTERACTION_ACCESSED
  | INTERACTION_ASSIGNED
  | INTERACTION_CALLED.

Record NodeInteraction : Type := mkInteraction {
  interaction_type : InteractionType;
  thisArg : option ExpressionEntity;
  args : list ExpressionEntity
}.

Definition NODE_INTERACTION_UNKNOWN_ACCESS : NodeInteraction :=
  {| interaction_type := INTERACTION_ACCESSED; thisArg := None; args := [] |}.

(** ** Errors *)

(** What an error log says: which error, about which binding, in which
    module. *)
Record RollupLog : Type := mkLog {
  code : string;
  binding : string;
  importer : string
}.

(** Modelled from the spec: [errorIllegalImportReassignment] of
    [utils/error] is not among the sources at hand; its log is the
    illegal-reassignment error "carrying the binding name and the owning
    module's identity". *)
Definition errorIllegalImportReassignment (name importingId : string) : RollupLog :=
  {| code := "ILLEGAL_REASSIGNMENT"; binding := name; importer := importingId |}.

Inductive Error : Type :=
  | TypeError                                   (* property read on [null] *)
  | InternalError (message : string)            (* [throw new Error(message)] *)
  | RollupError (log : RollupLog) (pos : Z).    (* [context.error(log, pos)] *)

(** How a method ends: with a value, or by throwing. *)
Inductive Completion (A : Type) : Type :=
  | Normal (a : A)
  | Throw (e : Error).
Arguments Normal {A} a.
Arguments Throw {A} e.

(** ** Calls into collaborators

    Methods of [LocalVariable], [Variable] and the AST context that an
    identifier invokes for their effect.  Their classes are not among the
    sources at hand, so an invocation is recorded, in order, in a log of
    calls that is part of the state of a run.  What these methods write is
    the bookkeeping of the variable and of the module graph, none of the
    fields an identifier reads. *)
Inductive Call : Type :=
  | consolidateInitializers (v : VarRef)
  | requestTreeshakingPass
  | includeVariableInModule (v : VarRef)
  | markInitializersForDeoptimization (v : VarRef)
  | addReference (v : VarRef) (identifier : Node)
  | Variable_deoptimizePath (v : VarRef) (path : ObjectPath)
  | Variable_deoptimizeThisOnInteractionAtPath (v : VarRef)
      (interaction : NodeInteraction) (path : ObjectPath)
  | Variable_includeCallArguments (v : VarRef) (parameters : list ExpressionEntity).

(** ** The world an identifier lives in

    The heap of variable objects (every reference denotes an object) and
    the state of the scope tree. *)
Record WorldOver (ScopeStore : Type) : Type := mkWorld {
  variables : VarRef -> VariableObject;
  scopes : ScopeStore
}.
Arguments mkWorld {ScopeStore} _ _.
Arguments variables {ScopeStore} _ _.
Arguments scopes {ScopeStore} _.

(** [LiteralValueOrUnknown]: a literal, or the symbol [UnknownValue]. *)
Inductive LiteralValueOrUnknown (L : Type) : Type :=
  | UnknownValue
  | KnownValue (value : L).
Arguments UnknownValue {L}.
Arguments KnownValue {L} value.

(** The interface of what an identifier talks to and whose code is outside
    its class: [isReference] of the package is-reference, scopes, and the
    query side of the expression entity protocol as variables answer it. *)
Class Collaborators : Type := {
  ScopeStore : Type;
  LiteralValue : Type;
  PathTracker : Type;
  DeoptimizableEntity : Type;
  HasEffectsContext : Type;
  InclusionContext : Type;
  isReference : Node -> option Node -> bool;
  Scope_contains : ScopeRef -> string -> WorldOver ScopeStore -> bool;
  Scope_findVariable :
    ScopeRef -> string -> WorldOver ScopeStore -> VarRef * WorldOver ScopeStore;
  Scope_addDeclaration :
    ScopeRef -> Identifier -> AstContext -> ExpressionEntity -> bool ->
    WorldOver ScopeStore -> VarRef * WorldOver ScopeStore;
  Scope_addParameterDeclaration :
    ScopeRef -> Identifier -> WorldOver ScopeStore -> VarRef * WorldOver ScopeStore;
  Variable_hasEffectsOnInteractionAtPath :
    WorldOver ScopeStore -> VarRef -> ObjectPath -> NodeInteraction ->
    HasEffectsContext -> bool;
  Variable_getLiteralValueAtPath :
    WorldOver ScopeStore -> VarRef -> ObjectPath -> PathTracker ->
    DeoptimizableEntity -> LiteralValueOrUnknown LiteralValue;
  Variable_getReturnExpressionWhenCalledAtPath :
    WorldOver ScopeStore -> VarRef -> ObjectPath -> NodeInteraction ->
    PathTracker -> DeoptimizableEntity -> ExpressionEntity * bool
}.

Section Identifier.

Context `{Collaborators}.

Local Abbreviation World := (WorldOver ScopeStore).

(** ** Methods as state transformers

    A method runs on the receiver [this] and the world, may update both
    and call collaborators, and completes normally or throws; what was
    written before a throw stays written. *)

Record State : Type := mkState {
  this : Identifier;
  world : World;
  calls : list Call
}.

Definition M (A : Type) : Type := State -> Completion A * State.

Definition ret {A} (a : A) : M A := fun s => (Normal a, s).

Definition and_then {A B} (m : M A) (k : A -> M B) : M B :=
  fun s =>
    match m s with
    | (Normal a, s') => k a s'
    | (Throw e, s') => (Throw e, s')
    end.

Definition throw {A} (e : Error) : M A := fun s => (Throw e, s).

Notation "x <- m ;; k" := (and_then m (fun x => k))
  (at level 100, m at next level, right associativity).
Notation "m ;;; k" := (and_then m (fun _ => k))
  (at level 100, right associativity).

Definition get_this : M Identifier := fun s => (Normal (this s), s).
Definition get_world : M World := fun s => (Normal (world s), s).
Definition put_this (i : Identifier) : M unit :=
  fun s => (Normal tt, {| this := i; world := world s; calls := calls s |}).
Definition put_world (w : World) : M unit :=
  fun s => (Normal tt, {| this := this s; world := w; calls := calls s |}).

(** Field assignments on [this]. *)
Definition with_variable (v : option VarRef) (i : Identifier) : Identifier :=
  {| node := node i; name := name i; scope := scope i; context := context i;
     variable := v; isTDZAccess := isTDZAccess i;
     deoptimized := deoptimized i; included := included i |}.
Definition with_isTDZAccess (b : option bool) (i : Identifier) : Identifier :=
  {| node := node i; name := name i; scope := scope i; context := context i;
     variable := variable i; isTDZAccess := b;
     deoptimized := deoptimized i; included := included i |}.
Definition with_deoptimized (b : bool) (i : Identifier) : Identifier :=
  {| node := node i; name := name i; scope := scope i; context := context i;
     variable := variable i; isTDZAccess := isTDZAccess i;
     deoptimized := b; included := included i |}.
Definition with_included (b : bool) (i : Identifier) : Identifier :=
  {| node := node i; name := name i; scope := scope i; context := context i;
     variable := variable i; isTDZAccess := isTDZAccess i;
     deoptimized := deoptimized i; included := b |}.

Definition assign (f : Identifier -> Identifier) : M unit :=
  i <- get_this ;; put_this (f i).

(** Field assignments on a variable object of the heap. *)
Definition with_kind (k : option string) (v : VariableObject) : VariableObject :=
  {| variableClass := variableClass v; kind := k;
     declarations := declarations v; initReached := initReached v |}.
Definition with_initReached (b : bool) (v : VariableObject) : VariableObject :=
  {| variableClass := variableClass v; kind := kind v;
     declarations := declarations v; initReached := b |}.

Definition update_variable (r : VarRef) (f : VariableObject -> VariableObject)
    (w : World) : World :=
  {| variables := fun r' => if Nat.eqb r' r then f (variables w r) else variables w r';
     scopes := scopes w |}.

Definition assign_variable (r : VarRef) (f : VariableObject -> VariableObject) : M unit :=
  w <- get_world ;; put_world (update_variable r f w).

(** An invocation of a collaborator's method, appended to the log. *)
Definition invoke (c : Call) : M unit :=
  fun s => (Normal tt, {| this := this s; world := world s; calls := calls s ++ [c] |}).

(** [this.variable!]: reading a property of [null] throws. *)
Definition non_null {A} (o : option A) : M A :=
  match o with
  | Some a => ret a
  | None => throw TypeError
  end.

(** [this.variable instanceof C] *)
Definition variable_instanceof (w : World) (o : option VarRef) (c : VariableClass) : bool :=
  match o with
  | Some r => instanceof (variables w r) c
  | None => false
  end.

(** A scope method that returns a variable and may update the world. *)
Definition register (f : World -> VarRef * World) : M VarRef :=
  w <- get_world ;;
  let '(r, w') := f w in
  put_world w' ;;; ret r.

(** *** Binding and delegation *)

(** [variables.push(...)] on the array passed in; the array after the call
    is the result.  [Map.has(null)] is false. *)
Definition addExportedVariables (variables : list VarRef)
    (exportNamesByVariable : gmap VarRef (list string)) : M (list VarRef) :=
  i <- get_this ;;
  match variable i with
  | Some r =>
      if bool_decide (is_Some (exportNamesByVariable !! r))
      then ret (variables ++ [r])
      else ret variables
  | None => ret variables
  end.

Definition bind : M unit :=
  i <- get_this ;;
  if bool_decide (variable i = None) && isReference (node i) (parent (node i)) then
    r <- register (Scope_findVariable (scope i) (name i)) ;;
    assign (with_variable (Some r)) ;;;
    invoke (addReference r (node i))
  else ret tt.

Definition deoptimizeThisOnInteractionAtPath (interaction : NodeInteraction)
    (path : ObjectPath) (recursionTracker : PathTracker) : M unit :=
  i <- get_this ;;
  r <- non_null (variable i) ;;
  invoke (Variable_deoptimizeThisOnInteractionAtPath r interaction path).

Definition includeCallArguments (ctx : InclusionContext)
    (parameters : list ExpressionEntity) : M unit :=
  i <- get_this ;;
  r <- non_null (variable i) ;;
  invoke (Variable_includeCallArguments r parameters).

(** *** Purity registry lookup *)

(** The loop of [isPureFunction] over the segments of the path, and the
    optional chaining after it. *)
Fixpoint isPureFunction_walk (currentPureFunction : option PureFunctions)
    (path : ObjectPath) : bool :=
  match path with
  | [] =>
      match currentPureFunction with
      | Some current => truthy (pureFunctionKey current)
      | None => false
      end
  | segment :: rest =>
      match currentPureFunction with
      | Some current =>
          if truthy (pureFunctionKey current) then true
          else isPureFunction_walk (get_segment current segment) rest
      | None => false
      end
  end.

(** [isPureFunction(path)]; the result is the truthiness of what the
    method returns. *)
Definition isPureFunction (i : Identifier) (path : ObjectPath) : bool :=
  isPureFunction_walk (segments (manualPureFunctions (context i)) !! name i) path.

(** *** Temporal dead zone *)

(** [(this.isTDZAccess = b)] as an expression. *)
Definition assign_isTDZAccess (b : bool) : M bool :=
  assign (with_isTDZAccess (Some b)) ;;; ret b.

(** Truthiness of [variable.kind], a [string | null]. *)
Definition truthy_string (o : option string) : bool :=
  match o with
  | Some s => negb (String.eqb s "")
  | None => false
  end.

Definition kind_in_tdzVariableKinds (o : option string) : bool :=
  match o with
  | Some k => key_in k tdzVariableKinds
  | None => false
  end.

(** The condition "accessed before its declaration in the same function
    or at top level of module". *)
Definition accessed_before_declaration (i : Identifier) (var : VariableObject) : bool :=
  Nat.eqb (length (declarations var)) 1
  && match declarations var !! 0%nat with
     | Some decl_id =>
         Z.ltb (start (node i)) (start decl_id)
         && same_node (closestParentFunctionOrProgram (node i))
                      (closestParentFunctionOrProgram decl_id)
     | None => false
     end.

Definition isPossibleTDZ : M bool :=
  i <- get_this ;;
  match isTDZAccess i with
  | Some cached => ret cached
  | None =>
      w <- get_world ;;
      match variable i with
      | None => assign_isTDZAccess false
      | Some r =>
          let var := variables w r in
          if negb (instanceof var LocalVariable)
             || negb (truthy_string (kind var))
             || negb (kind_in_tdzVariableKinds (kind var))
          then assign_isTDZAccess false
          else if accessed_before_declaration i var then assign_isTDZAccess true
          else if negb (initReached var) then assign_isTDZAccess true
          else assign_isTDZAccess false
      end
  end.

Definition markDeclarationReached : M unit :=
  i <- get_this ;;
  r <- non_null (variable i) ;;
  assign_variable r (with_initReached true).

Definition getVariableRespectingTDZ : M (option ExpressionEntity) :=
  tdz <- isPossibleTDZ ;;
  if tdz then ret (Some UNKNOWN_EXPRESSION)
  else i <- get_this ;; ret (VariableEntity <$> variable i).

(** *** Deoptimization and inclusion *)

Definition applyDeoptimizations : M unit :=
  assign (with_deoptimized true) ;;;
  i <- get_this ;;
  w <- get_world ;;
  match variable i with
  | Some r =>
      if instanceof (variables w r) LocalVariable
      then invoke (consolidateInitializers r) ;;; invoke requestTreeshakingPass
      else ret tt
  | None => ret tt
  end.

Definition include : M unit :=
  i <- get_this ;;
  (if negb (deoptimized i) then applyDeoptimizations else ret tt) ;;;
  i <- get_this ;;
  if negb (included i) then
    assign (with_included true) ;;;
    match variable i with
    | Some r => invoke (includeVariableInModule r)
    | None => ret tt
    end
  else ret tt.

(** Modelled from the spec: [context.error] is not among the sources at
    hand; its caller is declared to return [never], and the error is
    "reported with the binding name, the owning module identity, and the
    source position" and raised to the caller. *)
Definition context_error {A} (log : RollupLog) (pos : Z) : M A :=
  throw (RollupError log pos).

Definition disallowImportReassignment {A} : M A :=
  i <- get_this ;;
  context_error (errorIllegalImportReassignment (name i) (id (module (context i))))
                (start (node i)).

Definition deoptimizePath (path : ObjectPath) : M unit :=
  i <- get_this ;;
  w <- get_world ;;
  (if Nat.eqb (length path) 0 && negb (Scope_contains (scope i) (name i) w)
   then disallowImportReassignment
   else ret tt) ;;;
  match variable i with
  | Some r => invoke (Variable_deoptimizePath r path)
  | None => ret tt
  end.

(** *** The expression entity protocol, as asked of an entity *)

(** Modelled from the spec: [UNKNOWN_EXPRESSION] of [shared/Expression] is
    not among the sources at hand; it gives the conservative answers: an
    interaction has effects, no literal value is known, a call returns the
    unknown entity and is not known to be pure. *)
Definition Entity_hasEffectsOnInteractionAtPath (w : World) (e : ExpressionEntity)
    (path : ObjectPath) (interaction : NodeInteraction) (ctx : HasEffectsContext) : bool :=
  match e with
  | UNKNOWN_EXPRESSION => true
  | VariableEntity r => Variable_hasEffectsOnInteractionAtPath w r path interaction ctx
  end.

(** Modelled from the spec: see [Entity_hasEffectsOnInteractionAtPath]. *)
Definition Entity_getLiteralValueAtPath (w : World) (e : ExpressionEntity)
    (path : ObjectPath) (recursionTracker : PathTracker) (origin : DeoptimizableEntity)
  : LiteralValueOrUnknown LiteralValue :=
  match e with
  | UNKNOWN_EXPRESSION => UnknownValue
  | VariableEntity r => Variable_getLiteralValueAtPath w r path recursionTracker origin
  end.

(** Modelled from the spec: see [Entity_hasEffectsOnInteractionAtPath]. *)
Definition Entity_getReturnExpressionWhenCalledAtPath (w : World) (e : ExpressionEntity)
    (path : ObjectPath) (interaction : NodeInteraction)
    (recursionTracker : PathTracker) (origin : DeoptimizableEntity)
  : ExpressionEntity * bool :=
  match e with
  | UNKNOWN_EXPRESSION => (UNKNOWN_EXPRESSION, false)
  | VariableEntity r =>
      Variable_getReturnExpressionWhenCalledAtPath w r path interaction recursionTracker origin
  end.

(** *** Value queries *)

Definition getLiteralValueAtPath (path : ObjectPath) (recursionTracker : PathTracker)
    (origin : DeoptimizableEntity) : M (LiteralValueOrUnknown LiteralValue) :=
  o <- getVariableRespectingTDZ ;;
  e <- non_null o ;;
  w <- get_world ;;
  ret (Entity_getLiteralValueAtPath w e path recursionTracker origin).

Definition getReturnExpressionWhenCalledAtPath (path : ObjectPath)
    (interaction : NodeInteraction) (recursionTracker : PathTracker)
    (origin : DeoptimizableEntity) : M (ExpressionEntity * bool) :=
  o <- getVariableRespectingTDZ ;;
  e <- non_null o ;;
  w <- get_world ;;
  let '(expression, isPure) :=
    Entity_getReturnExpressionWhenCalledAtPath w e path interaction recursionTracker origin in
  i <- get_this ;;
  ret (expression, isPure || isPureFunction i path).

(** *** Effects *)

(** [a && b] where evaluating [b] may have effects of its own. *)
Definition andM (a : bool) (b : M bool) : M bool :=
  if a then b else ret false.

(** [treeshake.unknownGlobalSideEffects]; on [treeshake === false] the
    property read gives [undefined], which is falsy. *)
Definition option_unknownGlobalSideEffects (i : Identifier) : bool :=
  match treeshake (options (context i)) with
  | Some t => unknownGlobalSideEffects t
  | None => false
  end.

(** [this.variable!.kind !== 'var'] *)
Definition kind_is_not_var : M bool :=
  i <- get_this ;;
  r <- non_null (variable i) ;;
  w <- get_world ;;
  ret (negb (bool_decide (kind (variables w r) = Some "var"))).

(** The expression after [return] at the end of [hasEffects]. *)
Definition global_access_has_effects (i : Identifier) (w : World)
    (ctx : HasEffectsContext) : bool :=
  option_unknownGlobalSideEffects i
  && variable_instanceof w (variable i) GlobalVariable
  && negb (isPureFunction i EMPTY_PATH)
  && match variable i with
     | Some r =>
         Variable_hasEffectsOnInteractionAtPath w r EMPTY_PATH
           NODE_INTERACTION_UNKNOWN_ACCESS ctx
     | None => false
     end.

(** [hasEffects(context)]; the result is the truthiness of what the
    method returns. *)
Definition hasEffects (ctx : HasEffectsContext) : M bool :=
  i <- get_this ;;
  (if negb (deoptimized i) then applyDeoptimizations else ret tt) ;;;
  tdz <- isPossibleTDZ ;;
  guaranteed <- andM tdz kind_is_not_var ;;
  if guaranteed then ret true
  else
    i <- get_this ;;
    w <- get_world ;;
    ret (global_access_has_effects i w ctx).

Definition hasEffectsOnInteractionAtPath (path : ObjectPath)
    (interaction : NodeInteraction) (ctx : HasEffectsContext) : M bool :=
  i <- get_this ;;
  match interaction_type interaction with
  | INTERACTION_ACCESSED =>
      andM (bool_decide (variable i <> None) && negb (isPureFunction i path))
           (o <- getVariableRespectingTDZ ;;
            e <- non_null o ;;
            w <- get_world ;;
            ret (Entity_hasEffectsOnInteractionAtPath w e path interaction ctx))
  | INTERACTION_ASSIGNED =>
      o <- (if Nat.ltb 0 (length path) then getVariableRespectingTDZ
            else ret (VariableEntity <$> variable i)) ;;
      e <- non_null o ;;
      w <- get_world ;;
      ret (Entity_hasEffectsOnInteractionAtPath w e path interaction ctx)
  | INTERACTION_CALLED =>
      andM (negb (isPureFunction i path))
           (o <- getVariableRespectingTDZ ;;
            e <- non_null o ;;
            w <- get_world ;;
            ret (Entity_hasEffectsOnInteractionAtPath w e path interaction ctx))
  end.

(** *** Declarations *)

(** [treeshake && treeshake.correctVarValueBeforeDeclaration] *)
Definition option_correctVarValueBeforeDeclaration (i : Identifier) : bool :=
  match treeshake (options (context i)) with
  | Some t => correctVarValueBeforeDeclaration t
  | None => false
  end.

Definition declare (kind : string) (init : ExpressionEntity) : M (list VarRef) :=
  i <- get_this ;;
  r <- (if String.eqb kind "var" then
          r <- register (Scope_addDeclaration (scope i) i (context i) init true) ;;
          (if option_correctVarValueBeforeDeclaration i
           then invoke (markInitializersForDeoptimization r)
           else ret tt) ;;;
          ret r
        else if String.eqb kind "function" then
          register (Scope_addDeclaration (scope i) i (context i) init false)
        else if String.eqb kind "let" || String.eqb kind "const" || String.eqb kind "class" then
          register (Scope_addDeclaration (scope i) i (context i) init false)
        else if String.eqb kind "parameter" then
          register (Scope_addParameterDeclaration (scope i) i)
        else
          throw (InternalError
                   ("Internal Error: Unexpected identifier kind " ++ kind ++ ".")%string)) ;;
  assign_variable r (with_kind (Some kind)) ;;;
  assign (with_variable (Some r)) ;;;
  ret [r].

(** *** Runs

    What can happen to an identifier and its world between two queries:
    any of the methods above runs on it, or code elsewhere changes the
    world, appends to the log, or assigns the public fields [variable] and
    [included].  The fields [isTDZAccess] (private) and [deoptimized]
    (protected) are written by the methods of the class only.  The method
    [render] writes the output text and no field, so it is no step of its
    own. *)

Inductive method : forall A : Type, M A -> Prop :=
  | method_addExportedVariables variables exportNamesByVariable :
      method _ (addExportedVariables variables exportNamesByVariable)
  | method_bind : method _ bind
  | method_declare kind init : method _ (declare kind init)
  | method_deoptimizeThisOnInteractionAtPath interaction path recursionTracker :
      method _ (deoptimizeThisOnInteractionAtPath interaction path recursionTracker)
  | method_includeCallArguments ctx parameters :
      method _ (includeCallArguments ctx parameters)
  | method_deoptimizePath path : method _ (deoptimizePath path)
  | method_getLiteralValueAtPath path recursionTracker origin :
      method _ (getLiteralValueAtPath path recursionTracker origin)
  | method_getReturnExpressionWhenCalledAtPath path interaction recursionTracker origin :
      method _ (getReturnExpressionWhenCalledAtPath path interaction recursionTracker origin)
  | method_hasEffects ctx : method _ (hasEffects ctx)
  | method_hasEffectsOnInteractionAtPath path interaction ctx :
      method _ (hasEffectsOnInteractionAtPath path interaction ctx)
  | method_include : method _ include
  | method_isPossibleTDZ : method _ isPossibleTDZ
  | method_markDeclarationReached : method _ markDeclarationReached.

Inductive step : State -> State -> Prop :=
  | step_method (A : Type) (m : M A) (s : State) :
      method A m -> step s (snd (m s))
  | step_elsewhere (s : State) (w : World) (cs : list Call)
      (v : option VarRef) (inc : bool) :
      step s {| this := with_included inc (with_variable v (this s));
                world := w; calls := cs |}.

(** Any number of such steps. *)
Definition later : State -> State -> Prop := rtc step.

(** *** The registry walk, as the specification words it

    "Lookup walks the queried ObjectPath segment by segment; absence of a
    segment at any depth means not configured pure": the entry at the end
    of the whole path, if every segment is mirrored in the registry. *)
Fixpoint walk_registry (current : option PureFunctions) (path : ObjectPath)
  : option PureFunctions :=
  match path with
  | [] => current
  | segment :: rest =>
      match current with
      | Some registry => walk_registry (get_segment registry segment) rest
      | None => None
      end
  end.

(** The registry entry for a path queried through an identifier. *)
Definition registry_entry (i : Identifier) (path : ObjectPath) : option PureFunctions :=
  walk_registry (segments (manualPureFunctions (context i)) !! name i) path.

(** "Explicitly flagged pure at that exact path". *)
Definition flagged_pure (entry : option PureFunctions) : bool :=
  match entry with
  | Some e => truthy (pureFunctionKey e)
  | None => false
  end.

(** The calls of [applyDeoptimizations] on an identifier. *)
Definition deoptimization_calls (i : Identifier) (w : World) : list Call :=
  match variable i with
  | Some r =>
      if instanceof (variables w r) LocalVariable
      then [consolidateInitializers r; requestTreeshakingPass]
      else []
  | None => []
  end.

(** The calls of a method that starts with
    [if (!this.deoptimized) this.applyDeoptimizations()]. *)
Definition first_deoptimization_calls (i : Identifier) (w : World) : list Call :=
  if deoptimized i then [] else deoptimization_calls i w.

(** The calls of [include] for the inclusion itself. *)
Definition inclusion_calls (i : Identifier) : list Call :=
  if included i then []
  else match variable i with
       | Some r => [includeVariableInModule r]
       | None => []
       end.

(** The kinds [declare] has a case for. *)
Definition recognized_kinds : list string :=
  ["var"; "function"; "let"; "const"; "class"; "parameter"].

(** The scope method [declare] registers the variable with. *)
Definition registration (i : Identifier) (kind : string) (init : ExpressionEntity)
    (w : World) : VarRef * World :=
  if String.eqb kind "parameter" then Scope_addParameterDeclaration (scope i) i w
  else Scope_addDeclaration (scope i) i (context i) init (String.eqb kind "var") w.

(** The calls of [declare] on the variable it registered. *)
Definition declaration_calls (i : Identifier) (kind : string) (r : VarRef) : list Call :=
  if String.eqb kind "var" && option_correctVarValueBeforeDeclaration i
  then [markInitializersForDeoptimization r]
  else [].

(** A computation keeps a property of the receiver. *)
Definition keeps (P : Identifier -> Prop) {A} (m : M A) : Prop :=
  forall s, P (this s) -> P (this (snd (m s))).

(** The verdict an identifier has in its cache. *)
Definition verdict_is (b : bool) (i : Identifier) : Prop := isTDZAccess i = Some b.

(** [applyDeoptimizations] has run on an identifier. *)
Definition is_deoptimized (i : Identifier) : Prop := deoptimized i = true.

End Identifier.

(** * A module to run the model on

    <<
    console.log(x);              // x at 12, top level of the module
    function f() { return x; }   // x at 35, inside f
    const x = 1;                 // x declared at 50
    >>
    in module "main.js", whose scope contains [x] and [f]; [console] and
    [foo] are globals.  The purity registry is the one for the option
    [manualPureFunctions: ['foo', 'console.log']]. *)

Definition demo_program : Node :=
  {| node_id := 0; type := "Program"; start := 0; parent := None |}.

Definition demo_declaration : Node :=
  {| node_id := 1; type := "Identifier"; start := 50; parent := Some
  {| node_id := 2; type := "VariableDeclarator"; start := 50; parent := Some
  {| node_id := 3; type := "VariableDeclaration"; start := 44; parent := Some
     demo_program |} |} |}.

Definition demo_use : Node :=
  {| node_id := 4; type := "Identifier"; start := 12; parent := Some
  {| node_id := 5; type := "CallExpression"; start := 0; parent := Some
  {| node_id := 6; type := "ExpressionStatement"; start := 0; parent := Some
     demo_program |} |} |}.

Definition demo_use_in_function : Node :=
  {| node_id := 7; type := "Identifier"; start := 35; parent := Some
  {| node_id := 8; type := "ReturnStatement"; start := 28; parent := Some
  {| node_id := 9; type := "BlockStatement"; start := 26; parent := Some
  {| node_id := 10; type := "FunctionDeclaration"; start := 15; parent := Some
     demo_program |} |} |} |}.

Definition demo_pure : PureFunctions :=
  {| pureFunctionKey := Some true; segments := ∅ |}.

Definition demo_registry : PureFunctions :=
  {| pureFunctionKey := None;
     segments :=
       {[ "foo" := demo_pure;
          "console" := {| pureFunctionKey := None;
                          segments := {[ "log" := demo_pure ]} |} ]} |}.

Definition demo_context (correctVar unknownGlobals : bool) : AstContext :=
  {| options := {| treeshake :=
                     Some {| correctVarValueBeforeDeclaration := correctVar;
                             unknownGlobalSideEffects := unknownGlobals |} |};
     manualPureFunctions := demo_registry;
     module := {| id := "main.js" |} |}.

(** Variable 0 is [x], declared once with the given kind; variable 1 is a
    global. *)
Definition demo_variables (k : string) (reached : bool) (r : VarRef) : VariableObject :=
  match r with
  | O => {| variableClass := LocalVariable; kind := Some k;
            declarations := [demo_declaration]; initReached := reached |}
  | _ => {| variableClass := GlobalVariable; kind := None;
            declarations := []; initReached := false |}
  end.

(** Scopes list the names they contain; a registration allocates variable
    2; a global has effects when accessed, no known value, and returns
    itself when called; a name of the scope resolves to variable 0 and any
    other name to the global. *)
Definition demo_collaborators : Collaborators :=
  {| ScopeStore := ScopeRef -> list string;
     LiteralValue := Z;
     PathTracker := unit;
     DeoptimizableEntity := unit;
     HasEffectsContext := unit;
     InclusionContext := unit;
     isReference := fun _ _ => true;
     Scope_contains := fun sc n w => bool_decide (n ∈ scopes w sc);
     Scope_findVariable := fun sc n w =>
       (if bool_decide (n ∈ scopes w sc) then 0%nat else 1%nat, w);
     Scope_addDeclaration := fun sc i _ _ _ w =>
       (2%nat,
        {| variables := fun r =>
             if Nat.eqb r 2
             then {| variableClass := LocalVariable; kind := None;
                     declarations := [node i]; initReached := false |}
             else variables w r;
           scopes := fun sc' =>
             if Nat.eqb sc' sc then name i :: scopes w sc else scopes w sc' |});
     Scope_addParameterDeclaration := fun sc i w =>
       (2%nat,
        {| variables := fun r =>
             if Nat.eqb r 2
             then {| variableClass := LocalVariable; kind := None;
                     declarations := [node i]; initReached := true |}
             else variables w r;
           scopes := fun sc' =>
             if Nat.eqb sc' sc then name i :: scopes w sc else scopes w sc' |});
     Variable_hasEffectsOnInteractionAtPath := fun _ _ _ _ _ => true;
     Variable_getLiteralValueAtPath := fun _ _ _ _ _ => KnownValue 1;
     Variable_getReturnExpressionWhenCalledAtPath := fun _ r _ _ _ _ =>
       (VariableEntity r, false) |}.

Definition demo_world (k : string) (reached : bool)
  : WorldOver (@ScopeStore demo_collaborators) :=
  {| variables := demo_variables k reached; scopes := fun _ => ["x"; "f"] |}.

Definition demo_identifier (n : Node) (nm : string) (v : option VarRef)
    (ctx : AstContext) : Identifier :=
  {| node := n; name := nm; scope := 0%nat; context := ctx; variable := v;
     isTDZAccess := None; deoptimized := false; included := false |}.

(** A fresh run on an identifier. *)
Definition demo_state (i : Identifier) (k : string) (reached : bool)
  : @State demo_collaborators :=
  {| this := i; world := demo_world k reached; calls := [] |}.

(** The reference to [x] at the top level, for [x] of kind [k]. *)
Definition demo_x (k : string) : @State demo_collaborators :=
  demo_state (demo_identifier demo_use "x" (Some 0%nat) (demo_context true true)) k false.

(** The reference to [x] inside [f], queried after the declaration of [x]
    was reached or before. *)
Definition demo_x_in_f (reached : bool) : @State demo_collaborators :=
  demo_state (demo_identifier demo_use_in_function "x" (Some 0%nat)
                (demo_context true true)) "const" reached.

(** A reference to the global [g], with the option
    [unknownGlobalSideEffects] on or off. *)
Definition demo_global (g : string) (unknownGlobals : bool) : @State demo_collaborators :=
  demo_state (demo_identifier demo_use g (Some 1%nat) (demo_context true unknownGlobals))
             "const" false.

(** The identifier of a declaration about to be declared, with the option
    [correctVarValueBeforeDeclaration] on or off. *)
Definition demo_declaring (correctVar : bool) : @State demo_collaborators :=
  demo_state (demo_identifier demo_declaration "y" None (demo_context correctVar true))
             "const" false.

(** The identifier of the declaration of [x], bound to [x]. *)
Definition demo_x_declaration (reached : bool) : @State demo_collaborators :=
  demo_state (demo_identifier demo_declaration "x" (Some 0%nat) (demo_context true true))
             "const" reached.

(** A TDZ reference named like a registered pure function. *)
Definition demo_foo : @State demo_collaborators :=
  demo_state (demo_identifier demo_use "foo" (Some 0%nat) (demo_context true true))
             "const" false.

(** * Rendering, chains and footprints *)

(** The chain of a node: the node itself, its parent, and so on up to the
    root. *)
Fixpoint ancestors (n : Node) : list Node :=
  n :: match parent n with
       | Some p => ancestors p
       | None => []
       end.



(** The edits [render] makes on the [MagicString] of the module, which is
    of the package magic-string: an edit is recorded as the call made. *)
Inductive Edit : Type :=
  | overwrite (from to : Z) (content : string)
  | prependRight (index : Z) (content : string)
  | appendRight (index : Z) (content : string).

(** [NodeRenderOptions], as far as [render] destructures it; an absent
    flag is falsy. *)
Record NodeRenderOptions : Type := mkNodeRenderOptions {
  renderedParentType : option string;
  isCalleeOfRenderedParent : bool;
  isShorthandProperty : bool
}.

(** The default of the third argument of [render]: an object without
    properties. *)
Definition BLANK : NodeRenderOptions :=
  {| renderedParentType := None;
     isCalleeOfRenderedParent := false;
     isShorthandProperty := false |}.

Section Rendering.

Context `{Collaborators}.

(** What [render] reads and the classes above do not carry: the [end]
    offset of a node, the name a variable is rendered with, and the
    constant [NodeType.CallExpression]. *)
Variable GetPropertyAccess : Type.
Variable node_end : Node -> Z.
Variable Variable_getName : WorldOver ScopeStore -> VarRef -> GetPropertyAccess -> string.
Variable CallExpression : string.

(** [render(code, { snippets: { getPropertyAccess } }, options = BLANK)]:
    the edits made on [code], in order. *)
Definition render (i : Identifier) (w : WorldOver ScopeStore)
    (getPropertyAccess : GetPropertyAccess) (options : NodeRenderOptions) : list Edit :=
  match variable i with
  | Some r =>
      let rendered := Variable_getName w r getPropertyAccess in
      (if negb (String.eqb rendered (name i)) then
         overwrite (start (node i)) (node_end (node i)) rendered
         :: (if isShorthandProperty options
             then [prependRight (start (node i)) (name i ++ ": ")%string]
             else [])
       else [])
      ++ (if String.eqb rendered "eval"
             && bool_decide (renderedParentType options = Some CallExpression)
             && isCalleeOfRenderedParent options
          then [appendRight (start (node i)) "0, "]
          else [])
  | None => []
  end.

End Rendering.

Section Footprint.

Context `{Collaborators}.

(** A relation between the state before a computation and the state
    after it. *)
Definition after (R : State -> State -> Prop) {A} (m : M A) : Prop :=
  forall s, R s (snd (m s)).

(** The world is the one it was. *)
Definition same_world (s s' : State) : Prop := world s' = world s.

(** The methods that ask or delegate; the others are [bind], [declare]
    and [markDeclarationReached]. *)
Inductive reader : forall A : Type, M A -> Prop :=
  | reader_addExportedVariables variables exportNamesByVariable :
      reader _ (addExportedVariables variables exportNamesByVariable)
  | reader_deoptimizePath path : reader _ (deoptimizePath path)
  | reader_deoptimizeThisOnInteractionAtPath interaction path recursionTracker :
      reader _ (deoptimizeThisOnInteractionAtPath interaction path recursionTracker)
  | reader_getLiteralValueAtPath path recursionTracker origin :
      reader _ (getLiteralValueAtPath path recursionTracker origin)
  | reader_getReturnExpressionWhenCalledAtPath path interaction recursionTracker origin :
      reader _ (getReturnExpressionWhenCalledAtPath path interaction recursionTracker origin)
  | reader_hasEffects ctx : reader _ (hasEffects ctx)
  | reader_hasEffectsOnInteractionAtPath path interaction ctx :
      reader _ (hasEffectsOnInteractionAtPath path interaction ctx)
  | reader_include : reader _ include
  | reader_includeCallArguments ctx parameters :
      reader _ (includeCallArguments ctx parameters)
  | reader_isPossibleTDZ : reader _ isPossibleTDZ.

(** The fields of an identifier that are given with the AST. *)
Definition same_identity (i i' : Identifier) : Prop :=
  node i' = node i /\ name i' = name i /\ scope i' = scope i /\ context i' = context i.

End Footprint.

(** * Properties *)

(** Induction along the parent chain of a node. *)
Lemma Node_chain_ind (P : Node -> Prop) :
  (forall i t s, P (mkNode i t s None)) ->
  (forall i t s p, P p -> P (mkNode i t s (Some p))) ->
  forall n, P n.
Proof.
  intros Hroot Hstep. fix IH 1. intros [i t s [p|]].
  - apply Hstep, IH.
  - apply Hroot.
Qed.




Section Properties.

Context `{Collaborators}.

Local Abbreviation World := (WorldOver ScopeStore).

(** ** Records are determined by their fields *)

Lemma with_isTDZAccess_same (i : Identifier) :
  with_isTDZAccess (isTDZAccess i) i = i.
Proof. by destruct i. Qed.

Lemma State_eta (s : State) :
  {| this := this s; world := world s; calls := calls s |} = s.
Proof. by destruct s. Qed.

(** ** The purity registry *)

Lemma isPureFunction_walk_None (path : ObjectPath) :
  isPureFunction_walk None path = false.
Proof. by destruct path. Qed.

Lemma walk_registry_None (path : ObjectPath) :
  walk_registry None path = None.
Proof. by destruct path. Qed.

Lemma walk_registry_app (current : option PureFunctions) (p q : ObjectPath) :
  walk_registry current (p ++ q) = walk_registry (walk_registry current p) q.
Proof.
  revert current; induction p as [|segment p IH]; intros current; simpl; [done|].
  destruct current as [registry|]; [apply IH | by rewrite walk_registry_None].
Qed.

(** The loop answers "pure" exactly when a prefix of the path leads to a
    flagged entry. *)
Lemma isPureFunction_walk_prefix (current : option PureFunctions) (path : ObjectPath) :
  isPureFunction_walk current path = true <->
  exists p, p `prefix_of` path /\ flagged_pure (walk_registry current p) = true.
Proof.
  revert current; induction path as [|segment rest IH]; intros current.
  - simpl. split.
    + intros Hflag. exists []. split; [done|]. by destruct current.
    + intros (p & Hp & Hflag). apply prefix_nil_inv in Hp as ->. by destruct current.
  - destruct current as [registry|]; simpl.
    + destruct (truthy (pureFunctionKey registry)) eqn:Hflag.
      * split; [|done]. intros _. exists []. split; [apply prefix_nil|done].
      * rewrite IH. split.
        -- intros (p & Hp & Hpure). exists (segment :: p). split; [by apply prefix_cons|done].
        -- intros (p & Hp & Hpure). destruct p as [|segment' p].
           ++ simpl in Hpure. congruence.
           ++ apply prefix_cons_inv_1 in Hp as Hseg. apply prefix_cons_inv_2 in Hp.
              subst segment'. by exists p.
    + split; [done|]. intros (p & _ & Hpure).
      rewrite walk_registry_None in Hpure. done.
Qed.

(** ** The temporal-dead-zone verdict *)

(** A cached verdict is returned as it is, and nothing is written. *)
Lemma isPossibleTDZ_cached (s : State) (b : bool) :
  isTDZAccess (this s) = Some b -> isPossibleTDZ s = (Normal b, s).
Proof.
  intros Hcache. unfold isPossibleTDZ, and_then, get_this. simpl. by rewrite Hcache.
Qed.

(** Every query completes normally, and leaves its verdict in the cache
    and everything else as it was. *)
Lemma isPossibleTDZ_runs (s : State) :
  exists b, isPossibleTDZ s =
    (Normal b, {| this := with_isTDZAccess (Some b) (this s);
                  world := world s; calls := calls s |}).
Proof.
  destruct (isTDZAccess (this s)) as [b|] eqn:Hcache.
  - exists b. rewrite (isPossibleTDZ_cached s b Hcache).
    by rewrite <- Hcache, with_isTDZAccess_same, State_eta.
  - unfold isPossibleTDZ, and_then, get_this, get_world. simpl. rewrite Hcache.
    destruct (variable (this s)) as [r|]; [|by exists false].
    repeat match goal with
           | |- context [if ?c then _ else _] => destruct c
           end; by eexists.
Qed.

(** ** What the methods keep *)

Section Keeps.

Variable P : Identifier -> Prop.

Lemma keeps_ret {A} (a : A) : keeps P (ret a).
Proof. by intros s. Qed.

Lemma keeps_throw {A} (e : Error) : keeps P (throw (A:=A) e).
Proof. by intros s. Qed.

Lemma keeps_bind {A B} (m : M A) (k : A -> M B) :
  keeps P m -> (forall a, keeps P (k a)) -> keeps P (and_then m k).
Proof.
  intros Hm Hk s HP. specialize (Hm s HP). unfold and_then.
  destruct (m s) as [[a|e] s']; simpl in *; [by apply Hk | done].
Qed.

Lemma keeps_get_this : keeps P get_this.
Proof. by intros s. Qed.

Lemma keeps_get_world : keeps P get_world.
Proof. by intros s. Qed.

Lemma keeps_put_world (w : World) : keeps P (put_world w).
Proof. by intros s. Qed.

Lemma keeps_invoke (c : Call) : keeps P (invoke c).
Proof. by intros s. Qed.

Lemma keeps_assign (f : Identifier -> Identifier) :
  (forall i, P i -> P (f i)) -> keeps P (assign f).
Proof. intros Hf s HP. by apply Hf. Qed.

Lemma keeps_assign_variable (r : VarRef) (f : VariableObject -> VariableObject) :
  keeps P (assign_variable r f).
Proof. by intros s. Qed.

Lemma keeps_non_null {A} (o : option A) : keeps P (non_null o).
Proof. by destruct o; intros s. Qed.

Lemma keeps_register (f : World -> VarRef * World) : keeps P (register f).
Proof.
  intros s HP. unfold register, and_then, get_world. simpl. by destruct (f (world s)).
Qed.

Lemma keeps_andM (a : bool) (m : M bool) : keeps P m -> keeps P (andM a m).
Proof. destruct a; [done | intros _; apply keeps_ret]. Qed.

End Keeps.

Create HintDb keeps.

#[local] Hint Resolve keeps_ret keeps_throw keeps_get_this keeps_get_world
  keeps_put_world keeps_invoke keeps_assign_variable keeps_non_null
  keeps_register : keeps.

(** Breaks a computation into its parts; what is left are the
    assignments to fields of the receiver and the calls of other methods. *)
Ltac keeps_parts :=
  repeat match goal with
         | |- keeps _ (and_then _ _) => apply keeps_bind; [|intros ?]
         | |- keeps _ (andM _ _) => apply keeps_andM
         | |- keeps _ (if ?c then _ else _) => destruct c
         | |- keeps _ (match ?o with _ => _ end) => destruct o
         | |- keeps _ _ => solve [auto with keeps]
         end.

(** *** The cache of the verdict *)

Lemma isPossibleTDZ_keeps_verdict (b : bool) : keeps (verdict_is b) isPossibleTDZ.
Proof. intros s Hb. by rewrite (isPossibleTDZ_cached s b Hb). Qed.

Lemma assign_keeps_verdict (b : bool) (f : Identifier -> Identifier) :
  (forall i, isTDZAccess (f i) = isTDZAccess i) -> keeps (verdict_is b) (assign f).
Proof. intros Hf. apply keeps_assign. intros i. unfold verdict_is. by rewrite Hf. Qed.

#[local] Hint Resolve isPossibleTDZ_keeps_verdict : keeps.

Ltac keeps_verdict :=
  keeps_parts; try (apply assign_keeps_verdict; by intros []).

Lemma method_keeps_verdict (b : bool) (A : Type) (m : M A) :
  method A m -> keeps (verdict_is b) m.
Proof.
  intros []; unfold addExportedVariables, bind, deoptimizeThisOnInteractionAtPath,
    includeCallArguments, declare, deoptimizePath, getLiteralValueAtPath,
    getReturnExpressionWhenCalledAtPath, hasEffects, hasEffectsOnInteractionAtPath,
    include, markDeclarationReached, getVariableRespectingTDZ, applyDeoptimizations,
    disallowImportReassignment, context_error, kind_is_not_var; keeps_verdict.
Qed.

Lemma step_keeps_verdict (b : bool) (s s' : State) :
  step s s' -> verdict_is b (this s) -> verdict_is b (this s').
Proof.
  intros [A m s0 Hm | s0 w cs v inc] Hb.
  - by apply (method_keeps_verdict b A m Hm).
  - by destruct s0 as [[] ? ?].
Qed.

Lemma later_keeps_verdict (b : bool) (s s' : State) :
  later s s' -> verdict_is b (this s) -> verdict_is b (this s').
Proof.
  induction 1 as [|s1 s2 s3 Hstep _ IH]; [done|].
  intros Hb. apply IH. by apply (step_keeps_verdict b s1 s2).
Qed.

(** *** The flag [deoptimized] *)

Lemma isPossibleTDZ_keeps_deoptimized : keeps is_deoptimized isPossibleTDZ.
Proof. intros s Hd. destruct (isPossibleTDZ_runs s) as [b ->]. done. Qed.

#[local] Hint Resolve isPossibleTDZ_keeps_deoptimized : keeps.

Lemma method_keeps_deoptimized (A : Type) (m : M A) :
  method A m -> keeps is_deoptimized m.
Proof.
  intros []; unfold addExportedVariables, bind, deoptimizeThisOnInteractionAtPath,
    includeCallArguments, declare, deoptimizePath, getLiteralValueAtPath,
    getReturnExpressionWhenCalledAtPath, hasEffects, hasEffectsOnInteractionAtPath,
    include, markDeclarationReached, getVariableRespectingTDZ, applyDeoptimizations,
    disallowImportReassignment, context_error, kind_is_not_var;
    keeps_parts; try (apply keeps_assign; by intros []).
Qed.

Lemma later_keeps_deoptimized (s s' : State) :
  later s s' -> is_deoptimized (this s) -> is_deoptimized (this s').
Proof.
  induction 1 as [|s1 s2 s3 Hstep _ IH]; [done|].
  intros Hd. apply IH. destruct Hstep as [A m s0 Hm | s0 w cs v inc].
  - by apply (method_keeps_deoptimized A m Hm).
  - by destruct s0 as [[] ? ?].
Qed.

(** ** The kinds with a temporal dead zone *)

Lemma kind_in_tdzVariableKinds_iff (k : option string) :
  kind_in_tdzVariableKinds k = true <->
  k = Some "let" \/ k = Some "const" \/ k = Some "class" \/ k = Some "var".
Proof.
  destruct k as [k|]; simpl; [|naive_solver].
  unfold key_in, tdzVariableKinds. rewrite bool_decide_eq_true.
  rewrite !lookup_insert_is_Some, lookup_singleton_is_Some. naive_solver.
Qed.

Lemma tdz_kind_truthy (k : option string) :
  kind_in_tdzVariableKinds k = true -> truthy_string k = true.
Proof.
  rewrite kind_in_tdzVariableKinds_iff. by intros [->|[->|[->| ->]]].
Qed.

Lemma instanceof_LocalVariable (var : VariableObject) :
  instanceof var LocalVariable = true <-> variableClass var = LocalVariable.
Proof. unfold instanceof. by destruct (variableClass var). Qed.

(** For a node inside a function or a program, [same_node] says that the
    other node has its closest function or program in the same object. *)
Lemma same_node_Some (a : Node) (o : option Node) :
  same_node (Some a) o = true <-> exists b, o = Some b /\ node_id b = node_id a.
Proof.
  destruct o as [b|]; simpl.
  - rewrite Nat.eqb_eq. split.
    + intros Hid. by exists b.
    + by intros (b' & [= <-] & Hid).
  - split; [done | by intros (? & ? & _)].
Qed.

Lemma accessed_before_declaration_iff (i : Identifier) (var : VariableObject) :
  accessed_before_declaration i var = true <->
  exists decl, declarations var = [decl] /\
    start (node i) < start decl /\
    same_node (closestParentFunctionOrProgram (node i))
              (closestParentFunctionOrProgram decl) = true.
Proof.
  unfold accessed_before_declaration.
  destruct (declarations var) as [|decl [|decl' rest]]; simpl.
  - split; [done | by intros (? & ? & _)].
  - rewrite andb_true_iff, Z.ltb_lt. split.
    + intros [? ?]. by exists decl.
    + by intros (? & [= <-] & ? & ?).
  - split; [done | by intros (? & ? & _)].
Qed.

(** ** Temporal-dead-zone detection *)


(** C5.  Once [isPossibleTDZ] has returned a verdict, every later call on
    the node returns the same verdict and writes nothing, whatever
    happened in between: other methods of the identifier ran, the world
    changed (in particular [initReached] of the variable), public fields
    were assigned. *)
Theorem isPossibleTDZ_verdict_is_final (s s1 s2 : State) (b : bool) :
  isPossibleTDZ s = (Normal b, s1) ->
  later s1 s2 ->
  isPossibleTDZ s2 = (Normal b, s2).
Proof.
  intros Hfirst Hlater. apply isPossibleTDZ_cached.
  apply (later_keeps_verdict b s1 s2 Hlater).
  destruct (isPossibleTDZ_runs s) as [b' Hruns].
  rewrite Hruns in Hfirst. by injection Hfirst as -> <-.
Qed.

(** ** Purity *)

(** C3, as the code has it.  [isPureFunction] answers "pure" exactly when
    some prefix of the queried path (the empty one and the whole path
    included), walked segment by segment through the registry from the
    identifier's name, ends at an entry flagged pure; the segments after
    that entry need not be in the registry. *)
Theorem isPureFunction_iff_flagged_prefix (i : Identifier) (path : ObjectPath) :
  isPureFunction i path = true <->
  exists p, p `prefix_of` path /\ flagged_pure (registry_entry i p) = true.
Proof. apply isPureFunction_walk_prefix. Qed.

(** ** What the methods do to the state *)

Lemma with_deoptimized_same (i : Identifier) :
  with_deoptimized (deoptimized i) i = i.
Proof. by destruct i. Qed.

Lemma with_included_same (i : Identifier) :
  with_included (included i) i = i.
Proof. by destruct i. Qed.

Lemma applyDeoptimizations_runs (s : State) :
  applyDeoptimizations s =
    (Normal tt, {| this := with_deoptimized true (this s); world := world s;
                   calls := calls s ++ deoptimization_calls (this s) (world s) |}).
Proof.
  unfold applyDeoptimizations, deoptimization_calls, and_then, assign, get_this,
    get_world, put_this, invoke, ret. simpl.
  destruct (variable (this s)) as [r|]; simpl.
  - destruct (instanceof (variables (world s) r) LocalVariable); simpl.
    + by rewrite <- app_assoc.
    + by rewrite app_nil_r.
  - by rewrite app_nil_r.
Qed.

(** The guard in front of [applyDeoptimizations]. *)
Lemma deoptimize_once_runs (s : State) :
  (if negb (deoptimized (this s)) then applyDeoptimizations else ret tt) s =
    (Normal tt, {| this := with_deoptimized true (this s); world := world s;
                   calls := calls s ++ first_deoptimization_calls (this s) (world s) |}).
Proof.
  unfold first_deoptimization_calls.
  destruct (deoptimized (this s)) eqn:Hd; simpl.
  - unfold ret. by rewrite <- Hd, with_deoptimized_same, app_nil_r, State_eta.
  - apply applyDeoptimizations_runs.
Qed.

(** The verdict depends on the node, the variable, the cache and the world
    only. *)
Lemma isPossibleTDZ_verdict_frame (s1 s2 : State) :
  node (this s1) = node (this s2) ->
  variable (this s1) = variable (this s2) ->
  isTDZAccess (this s1) = isTDZAccess (this s2) ->
  world s1 = world s2 ->
  fst (isPossibleTDZ s1) = fst (isPossibleTDZ s2).
Proof.
  intros Hnode Hvar Hcache Hworld.
  unfold isPossibleTDZ, and_then, get_this, get_world, accessed_before_declaration. simpl.
  rewrite Hnode, Hvar, Hcache.
  destruct (isTDZAccess (this s2)); [done|].
  destruct (variable (this s2)); [|done]. rewrite Hworld.
  repeat match goal with
         | |- context [if ?c then _ else _] => destruct c
         end; done.
Qed.

Lemma include_runs (s : State) :
  include s =
    (Normal tt, {| this := with_included true (with_deoptimized true (this s));
                   world := world s;
                   calls := (calls s ++ first_deoptimization_calls (this s) (world s))
                              ++ inclusion_calls (this s) |}).
Proof.
  unfold include. unfold and_then at 1. unfold get_this at 1.
  unfold and_then at 1. rewrite deoptimize_once_runs.
  unfold and_then, get_this, assign, put_this, invoke, ret, inclusion_calls. simpl.
  destruct (included (this s)) eqn:Hinc; simpl.
  - rewrite app_nil_r. do 2 f_equal. rewrite <- Hinc.
    by destruct (this s).
  - destruct (variable (this s)); simpl; [done|]. by rewrite app_nil_r.
Qed.

Lemma hasEffects_runs (ctx : HasEffectsContext) (s : State) :
  exists tdz : bool,
    fst (isPossibleTDZ s) = Normal tdz /\
    hasEffects ctx s =
      (if tdz then
         match variable (this s) with
         | Some r =>
             Normal (negb (bool_decide (kind (variables (world s) r) = Some "var"))
                     || global_access_has_effects (this s) (world s) ctx)
         | None => Throw TypeError
         end
       else Normal (global_access_has_effects (this s) (world s) ctx),
       {| this := with_isTDZAccess (Some tdz) (with_deoptimized true (this s));
          world := world s;
          calls := calls s ++ first_deoptimization_calls (this s) (world s) |}).
Proof.
  unfold hasEffects. unfold and_then at 1. unfold get_this at 1.
  unfold and_then at 1. rewrite deoptimize_once_runs.
  set (s0' := {| this := with_deoptimized true (this s); world := world s;
                 calls := calls s ++ first_deoptimization_calls (this s) (world s) |}).
  destruct (isPossibleTDZ_runs s0') as [tdz Htdz]. exists tdz. split.
  - rewrite (isPossibleTDZ_verdict_frame s s0'); [by rewrite Htdz | done..].
  - unfold and_then at 1. rewrite Htdz.
    unfold andM, kind_is_not_var, and_then, get_this, get_world, non_null, ret, throw.
    destruct tdz; simpl; [|done].
    destruct (variable (this s)) as [r|]; simpl; [|done].
    by destruct (bool_decide (kind (variables (world s) r) = Some "var")).
Qed.

Lemma global_access_has_effects_iff (i : Identifier) (w : World) (ctx : HasEffectsContext) :
  global_access_has_effects i w ctx = true <->
  (exists t, treeshake (options (context i)) = Some t /\
             unknownGlobalSideEffects t = true) /\
  exists r, variable i = Some r /\
    variableClass (variables w r) = GlobalVariable /\
    isPureFunction i EMPTY_PATH = false /\
    Variable_hasEffectsOnInteractionAtPath w r EMPTY_PATH
      NODE_INTERACTION_UNKNOWN_ACCESS ctx = true.
Proof.
  unfold global_access_has_effects, option_unknownGlobalSideEffects,
    variable_instanceof, instanceof.
  rewrite !andb_true_iff, negb_true_iff. split.
  - intros [[[Hoption Hglobal] Hpure] Heffect].
    destruct (treeshake (options (context i))) as [t|]; [|done].
    destruct (variable i) as [r|]; [|done].
    split; [by exists t|]. exists r. repeat split; try done.
    by destruct (variableClass (variables w r)).
  - intros [(t & -> & Hflag) (r & -> & Hclass & Hpure & Heffect)].
    rewrite Hclass. done.
Qed.

(** X5.  A registered pure function has no effects when accessed or
    called: the query answers [false] without asking the variable and
    without computing a verdict, and the state stays as it is. *)
Lemma isPureFunction_suppresses_effects (s : State) (path : ObjectPath)
    (interaction : NodeInteraction) (ctx : HasEffectsContext) :
  isPureFunction (this s) path = true ->
  interaction_type interaction <> INTERACTION_ASSIGNED ->
  hasEffectsOnInteractionAtPath path interaction ctx s = (Normal false, s).
Proof.
  intros Hpure Hkind. unfold hasEffectsOnInteractionAtPath, and_then, get_this. simpl.
  destruct (interaction_type interaction); [|done|]; rewrite Hpure; simpl.
  - by rewrite andb_false_r.
  - done.
Qed.

(** ** Effects of a bare reference *)

(** C1, as the code has it.  When the verdict of the identifier is
    positive and the kind of its variable is not 'var', [hasEffects]
    returns [true].  When the kind is 'var', the verdict is not an effect:
    [hasEffects] answers as it does without a verdict, with the check for
    unknown globals, which is [false] for a [LocalVariable]. *)
Theorem hasEffects_on_TDZ (ctx : HasEffectsContext) (s : State) (r : VarRef) :
  fst (isPossibleTDZ s) = Normal true ->
  variable (this s) = Some r ->
  (kind (variables (world s) r) <> Some "var" ->
     fst (hasEffects ctx s) = Normal true) /\
  (kind (variables (world s) r) = Some "var" ->
     fst (hasEffects ctx s) = Normal (global_access_has_effects (this s) (world s) ctx) /\
     (variableClass (variables (world s) r) = LocalVariable ->
        fst (hasEffects ctx s) = Normal false)).
Proof.
  intros Htdz Hvar. destruct (hasEffects_runs ctx s) as (tdz & Htdz' & ->).
  rewrite Htdz in Htdz'. injection Htdz' as <-. rewrite Hvar. simpl. split.
  - intros Hkind. by rewrite bool_decide_eq_false_2.
  - intros Hkind. rewrite bool_decide_eq_true_2 by done. simpl. split; [done|].
    intros Hlocal. f_equal. apply not_true_is_false.
    rewrite global_access_has_effects_iff.
    intros (_ & r' & Hr' & Hglobal & _). rewrite Hvar in Hr'. injection Hr' as <-.
    congruence.
Qed.

(** At the empty path the identifier is pure exactly when the registry
    has an entry under its name and that entry carries the flag. *)
Lemma isPureFunction_at_empty_path (i : Identifier) :
  isPureFunction i EMPTY_PATH = flagged_pure (registry_entry i EMPTY_PATH).
Proof. reflexivity. Qed.

(** C6.  For an identifier without a positive verdict, [hasEffects]
    returns [true] exactly when the option [unknownGlobalSideEffects] is
    enabled, the identifier is resolved to a [GlobalVariable], the purity
    registry has no flagged entry for the identifier's name (it is not
    registered pure at the empty path), and the variable reports an effect
    for an unknown access at the empty path; with the option disabled it
    returns [false]. *)
Theorem hasEffects_without_TDZ (ctx : HasEffectsContext) (s : State) :
  fst (isPossibleTDZ s) = Normal false ->
  exists b : bool,
    fst (hasEffects ctx s) = Normal b /\
    (b = true <->
     (exists t, treeshake (options (context (this s))) = Some t /\
                unknownGlobalSideEffects t = true) /\
     exists r, variable (this s) = Some r /\
       variableClass (variables (world s) r) = GlobalVariable /\
       flagged_pure (registry_entry (this s) EMPTY_PATH) = false /\
       Variable_hasEffectsOnInteractionAtPath (world s) r EMPTY_PATH
         NODE_INTERACTION_UNKNOWN_ACCESS ctx = true) /\
    ((forall t, treeshake (options (context (this s))) = Some t ->
                unknownGlobalSideEffects t = false) ->
     b = false).
Proof.
  intros Htdz. destruct (hasEffects_runs ctx s) as (tdz & Htdz' & ->).
  rewrite Htdz in Htdz'. injection Htdz' as <-.
  exists (global_access_has_effects (this s) (world s) ctx).
  split; [done|]. rewrite <- isPureFunction_at_empty_path.
  split; [apply global_access_has_effects_iff|].
  intros Hoff. apply not_true_is_false. rewrite global_access_has_effects_iff.
  intros [(t & Ht & Hflag) _]. rewrite (Hoff t Ht) in Hflag. done.
Qed.

(** ** Value queries in the dead zone *)

Lemma getVariableRespectingTDZ_runs (s : State) :
  exists tdz : bool,
    fst (isPossibleTDZ s) = Normal tdz /\
    getVariableRespectingTDZ s =
      (Normal (if tdz then Some UNKNOWN_EXPRESSION
               else VariableEntity <$> variable (this s)),
       {| this := with_isTDZAccess (Some tdz) (this s);
          world := world s; calls := calls s |}).
Proof.
  destruct (isPossibleTDZ_runs s) as [tdz Hruns]. exists tdz.
  split; [by rewrite Hruns|].
  unfold getVariableRespectingTDZ, and_then. rewrite Hruns. by destruct tdz.
Qed.

(** C10.  On an identifier with a positive verdict the value queries are
    answered by the unknown entity instead of the variable:
    [getLiteralValueAtPath] returns [UnknownValue] for every path, and
    [getReturnExpressionWhenCalledAtPath] returns the unknown expression,
    with [isPure] being what the purity registry says about the path. *)
Theorem value_queries_on_TDZ (s : State) (path : ObjectPath)
    (interaction : NodeInteraction) (recursionTracker : PathTracker)
    (origin : DeoptimizableEntity) :
  fst (isPossibleTDZ s) = Normal true ->
  fst (getLiteralValueAtPath path recursionTracker origin s) = Normal UnknownValue /\
  fst (getReturnExpressionWhenCalledAtPath path interaction recursionTracker origin s) =
    Normal (UNKNOWN_EXPRESSION, isPureFunction (this s) path).
Proof.
  intros Htdz. destruct (getVariableRespectingTDZ_runs s) as (tdz & Htdz' & Hruns).
  rewrite Htdz in Htdz'. injection Htdz' as <-.
  unfold getLiteralValueAtPath, getReturnExpressionWhenCalledAtPath.
  split; unfold and_then at 1; by rewrite Hruns.
Qed.

(** ** Reassignment of imports *)

(** C4.  [deoptimizePath] with the empty path on an identifier whose name
    its scope does not contain throws the illegal-reassignment error with
    the name of the identifier, the id of its module and its position, and
    nothing is delegated; when the scope contains the name nothing is
    thrown and the variable, if the identifier has one, is asked to
    deoptimize the path. *)
Theorem deoptimizePath_reassignment (s : State) :
  (Scope_contains (scope (this s)) (name (this s)) (world s) = false ->
   deoptimizePath EMPTY_PATH s =
     (Throw (RollupError
               {| code := "ILLEGAL_REASSIGNMENT";
                  binding := name (this s);
                  importer := id (module (context (this s))) |}
               (start (node (this s)))),
      s)) /\
  (Scope_contains (scope (this s)) (name (this s)) (world s) = true ->
   forall path,
   deoptimizePath path s =
     (Normal tt,
      {| this := this s; world := world s;
         calls := calls s ++ match variable (this s) with
                             | Some r => [Variable_deoptimizePath r path]
                             | None => []
                             end |})).
Proof.
  unfold deoptimizePath, disallowImportReassignment, context_error, and_then, get_this, get_world,
    throw, ret, invoke. simpl. split.
  - by intros ->.
  - intros -> path. rewrite andb_false_r.
    destruct (variable (this s)); [done|]. by rewrite app_nil_r, State_eta.
Qed.

(** ** Consolidation of initializers *)

(** C7, as the code has it.  On an identifier of a [LocalVariable] that
    was neither included nor checked for effects before, the first
    [include] and the first [hasEffects] alike consolidate the
    initializers of the variable and request a pass, once each; whichever
    of the two ran first, no later [include] or [hasEffects] on the node
    does so again. *)
Theorem consolidation_happens_once (ctx : HasEffectsContext) (s : State) (r : VarRef) :
  variable (this s) = Some r ->
  variableClass (variables (world s) r) = LocalVariable ->
  deoptimized (this s) = false ->
  calls (snd (include s)) =
    calls s ++ [consolidateInitializers r; requestTreeshakingPass]
            ++ inclusion_calls (this s) /\
  calls (snd (hasEffects ctx s)) =
    calls s ++ [consolidateInitializers r; requestTreeshakingPass] /\
  forall s1 s2 ctx',
    s1 = snd (include s) \/ s1 = snd (hasEffects ctx s) ->
    later s1 s2 ->
    calls (snd (include s2)) = calls s2 ++ inclusion_calls (this s2) /\
    calls (snd (hasEffects ctx' s2)) = calls s2.
Proof.
  intros Hvar Hlocal Hfresh.
  assert (first_deoptimization_calls (this s) (world s)
          = [consolidateInitializers r; requestTreeshakingPass]) as Hfirst.
  { unfold first_deoptimization_calls, deoptimization_calls.
    rewrite Hfresh, Hvar. by rewrite (proj2 (instanceof_LocalVariable _) Hlocal). }
  destruct (hasEffects_runs ctx s) as (tdz & _ & Heffects).
  split; [|split].
  - rewrite include_runs. simpl. by rewrite Hfirst, <- app_assoc.
  - rewrite Heffects. simpl. by rewrite Hfirst.
  - intros s1 s2 ctx' Hfrom Hlater.
    assert (is_deoptimized (this s2)) as Hd.
    { apply (later_keeps_deoptimized s1 s2); [done|].
      destruct Hfrom as [-> | ->]; [by rewrite include_runs | by rewrite Heffects]. }
    split.
    + rewrite include_runs. simpl. unfold first_deoptimization_calls.
      rewrite Hd. by rewrite app_nil_r.
    + destruct (hasEffects_runs ctx' s2) as (tdz' & _ & ->). simpl.
      unfold first_deoptimization_calls. rewrite Hd. by rewrite app_nil_r.
Qed.

(** ** Declarations *)

Lemma recognized_kinds_iff (k : string) :
  k ∈ recognized_kinds <->
  k = "var" \/ k = "function" \/ k = "let" \/ k = "const" \/ k = "class"
  \/ k = "parameter".
Proof.
  unfold recognized_kinds. rewrite !elem_of_cons, elem_of_nil. naive_solver.
Qed.

(** What [declare] does for a kind it has a case for. *)
Lemma declare_runs (s : State) (k : string) (init : ExpressionEntity) :
  k ∈ recognized_kinds ->
  declare k init s =
    (let '(r, w) := registration (this s) k init (world s) in
     (Normal [r],
      {| this := with_variable (Some r) (this s);
         world := update_variable r (with_kind (Some k)) w;
         calls := calls s ++ declaration_calls (this s) k r |})).
Proof.
  rewrite recognized_kinds_iff.
  intros [->|[->|[->|[->|[->| ->]]]]];
    unfold declare, registration, declaration_calls, register, and_then, get_this,
      get_world, put_world, put_this, assign, assign_variable, invoke, ret; simpl;
    match goal with
    | |- context [Scope_addDeclaration ?a ?b ?c ?d ?e ?f] =>
        destruct (Scope_addDeclaration a b c d e f) as [r w]
    | |- context [Scope_addParameterDeclaration ?a ?b ?c] =>
        destruct (Scope_addParameterDeclaration a b c) as [r w]
    end; simpl; rewrite ?app_nil_r; try done.
  by destruct (option_correctVarValueBeforeDeclaration (this s)); simpl;
    rewrite ?app_nil_r.
Qed.

(** What [declare] does for any other kind. *)
Lemma declare_throws (s : State) (k : string) (init : ExpressionEntity) :
  k ∉ recognized_kinds ->
  declare k init s =
    (Throw (InternalError ("Internal Error: Unexpected identifier kind " ++ k ++ ".")%string), s).
Proof.
  rewrite recognized_kinds_iff. intros Hk.
  unfold declare, and_then, get_this. simpl.
  destruct (String.eqb_spec k "var"); [naive_solver|].
  destruct (String.eqb_spec k "function"); [naive_solver|].
  destruct (String.eqb_spec k "let"); [naive_solver|].
  destruct (String.eqb_spec k "const"); [naive_solver|].
  destruct (String.eqb_spec k "class"); [naive_solver|].
  destruct (String.eqb_spec k "parameter"); [naive_solver|].
  done.
Qed.

(** C8.  [declare] with a kind other than var, function, let, const,
    class and parameter throws an internal error and changes nothing; with
    one of these kinds it returns a one-element list with the variable the
    scope method registered for it, in the world that registration left:
    the scopes are as the scope method left them, so are the other
    variables and the other fields of the new one, and its kind is the
    declared kind; it is the variable of the identifier from then on. *)
Theorem declare_by_kind (s : State) (k : string) (init : ExpressionEntity) :
  (k ∉ recognized_kinds ->
   declare k init s =
     (Throw (InternalError ("Internal Error: Unexpected identifier kind " ++ k ++ ".")%string), s)) /\
  (k ∈ recognized_kinds ->
   exists s',
     let r := fst (registration (this s) k init (world s)) in
     let registered := snd (registration (this s) k init (world s)) in
     declare k init s = (Normal [r], s') /\
     kind (variables (world s') r) = Some k /\
     variable (this s') = Some r /\
     scopes (world s') = scopes registered /\
     variableClass (variables (world s') r) = variableClass (variables registered r) /\
     declarations (variables (world s') r) = declarations (variables registered r) /\
     initReached (variables (world s') r) = initReached (variables registered r) /\
     forall r', r' <> r -> variables (world s') r' = variables registered r').
Proof.
  split; [apply declare_throws|].
  intros Hk. rewrite (declare_runs s k init Hk).
  destruct (registration (this s) k init (world s)) as [r w]. simpl.
  eexists. split; [reflexivity|]. simpl. rewrite Nat.eqb_refl.
  repeat split. intros r' Hr'. by apply Nat.eqb_neq in Hr' as ->.
Qed.

(** C9, as the code has it.  [declare] with kind 'var' marks the
    initializers of the variable for deoptimization when tree-shaking is
    on and its option [correctVarValueBeforeDeclaration] is set, and not
    otherwise; with the kinds function, let, const, class and parameter it
    never does. *)
Theorem declare_marks_initializers (s : State) (k : string) (init : ExpressionEntity) :
  k ∈ recognized_kinds ->
  let r := fst (registration (this s) k init (world s)) in
  (k = "var" ->
   (exists t, treeshake (options (context (this s))) = Some t /\
              correctVarValueBeforeDeclaration t = true) ->
   calls (snd (declare k init s)) = calls s ++ [markInitializersForDeoptimization r]) /\
  (k = "var" ->
   (forall t, treeshake (options (context (this s))) = Some t ->
              correctVarValueBeforeDeclaration t = false) ->
   calls (snd (declare k init s)) = calls s) /\
  (k <> "var" -> calls (snd (declare k init s)) = calls s).
Proof.
  intros Hk. rewrite (declare_runs s k init Hk).
  destruct (registration (this s) k init (world s)) as [r w]. simpl.
  unfold declaration_calls, option_correctVarValueBeforeDeclaration.
  repeat split.
  - intros -> (t & -> & ->). done.
  - intros -> Hoff. simpl.
    destruct (treeshake (options (context (this s)))) as [t|]; [|by rewrite app_nil_r].
    rewrite (Hoff t eq_refl). by rewrite app_nil_r.
  - intros Hne. destruct (String.eqb_spec k "var"); [done|]. by rewrite app_nil_r.
Qed.

End Properties.

(** * The properties on the example module *)

Example tdz_before_declaration_same_function :
  fst (isPossibleTDZ (demo_x "const")) = Normal true.
Proof. vm_compute. reflexivity. Qed.

Example tdz_in_nested_function_after_declaration_reached :
  fst (isPossibleTDZ (demo_x_in_f true)) = Normal false.
Proof. vm_compute. reflexivity. Qed.

Example tdz_in_nested_function_before_declaration_reached :
  fst (isPossibleTDZ (demo_x_in_f false)) = Normal true.
Proof. vm_compute. reflexivity. Qed.

(** ** Effects of a bare reference *)

Lemma hasEffects_on_TDZ_witness :
  fst (hasEffects (H:=demo_collaborators) tt (demo_x "const")) = Normal true /\
  fst (hasEffects (H:=demo_collaborators) tt (demo_x "var")) = Normal false.
Proof.
  split.
  - destruct (hasEffects_on_TDZ (H:=demo_collaborators) tt (demo_x "const") 0%nat)
      as [Hother _]; [vm_compute; reflexivity | reflexivity |].
    apply Hother. vm_compute. discriminate.
  - destruct (hasEffects_on_TDZ (H:=demo_collaborators) tt (demo_x "var") 0%nat)
      as [_ Hvar]; [vm_compute; reflexivity | reflexivity |].
    apply Hvar; reflexivity.
Defined.

(** The claim C1 fails for a reference to [var x] before its declaration:
    the verdict is positive and [hasEffects] returns [false]. *)
Lemma hasEffects_on_TDZ_var_counterexample :
  fst (isPossibleTDZ (demo_x "var")) = Normal true /\
  fst (hasEffects (H:=demo_collaborators) tt (demo_x "var")) = Normal false.
Proof. split; vm_compute; reflexivity. Qed.

(** A reference to the unregistered global [bar] is an effect with the
    option on and none with the option off; a reference to the global
    [foo], which is registered pure, is none even with the option on. *)
Lemma hasEffects_without_TDZ_witness :
  fst (hasEffects (H:=demo_collaborators) tt (demo_global "bar" true)) = Normal true /\
  fst (hasEffects (H:=demo_collaborators) tt (demo_global "bar" false)) = Normal false /\
  fst (hasEffects (H:=demo_collaborators) tt (demo_global "foo" true)) = Normal false.
Proof.
  split; [|split].
  - destruct (hasEffects_without_TDZ (H:=demo_collaborators) tt (demo_global "bar" true))
      as (b & -> & Hiff & _); [vm_compute; reflexivity|].
    f_equal. apply Hiff. split.
    + eexists. split; reflexivity.
    + exists 1%nat. repeat split; vm_compute; reflexivity.
  - destruct (hasEffects_without_TDZ (H:=demo_collaborators) tt (demo_global "bar" false))
      as (b & -> & _ & Hoff); [vm_compute; reflexivity|].
    f_equal. apply Hoff. intros t [= <-]. reflexivity.
  - destruct (hasEffects_without_TDZ (H:=demo_collaborators) tt (demo_global "foo" true))
      as (b & -> & Hiff & _); [vm_compute; reflexivity|].
    f_equal. destruct b; [exfalso | reflexivity].
    destruct (proj1 Hiff eq_refl) as (_ & r & _ & _ & Hflag & _).
    vm_compute in Hflag. discriminate Hflag.
Defined.

Example registered_pure_global_has_no_effect :
  fst (hasEffects (H:=demo_collaborators) tt (demo_global "foo" true)) = Normal false.
Proof. vm_compute. reflexivity. Qed.

(** ** Temporal-dead-zone detection *)


(** The verdict of the reference inside [f] was taken before the
    declaration of [x] was reached, and stays after it was reached. *)
Lemma isPossibleTDZ_verdict_is_final_witness :
  isPossibleTDZ (snd (markDeclarationReached (snd (isPossibleTDZ (demo_x_in_f false))))) =
    (Normal true, snd (markDeclarationReached (snd (isPossibleTDZ (demo_x_in_f false))))) /\
  initReached (variables (world (snd (markDeclarationReached
    (snd (isPossibleTDZ (demo_x_in_f false)))))) 0%nat) = true.
Proof.
  split; [|reflexivity].
  apply (isPossibleTDZ_verdict_is_final (demo_x_in_f false)
           (snd (isPossibleTDZ (demo_x_in_f false)))).
  - reflexivity.
  - apply rtc_once. apply (step_method _ markDeclarationReached).
    apply method_markDeclarationReached.
Defined.

(** ** Purity *)

(** The claim C3 fails for the path [bar] queried through [foo]:
    [foo.bar] is not in the registry, and the answer is "pure", because
    [foo] is flagged. *)
Lemma isPureFunction_exact_path_counterexample :
  isPureFunction (this demo_foo) [StringKey "bar"] = true /\
  registry_entry (this demo_foo) [StringKey "bar"] = None.
Proof. split; vm_compute; reflexivity. Qed.

(** ** Value queries in the dead zone *)

Lemma value_queries_on_TDZ_witness :
  fst (getLiteralValueAtPath (H:=demo_collaborators) EMPTY_PATH tt tt demo_foo) =
    Normal UnknownValue /\
  fst (getReturnExpressionWhenCalledAtPath (H:=demo_collaborators) EMPTY_PATH
         {| interaction_type := INTERACTION_CALLED; thisArg := None; args := [] |}
         tt tt demo_foo) =
    Normal (UNKNOWN_EXPRESSION, true).
Proof.
  apply (value_queries_on_TDZ (H:=demo_collaborators) demo_foo EMPTY_PATH).
  vm_compute. reflexivity.
Defined.

(** ** Reassignment of imports *)

Lemma deoptimizePath_reassignment_witness :
  fst (deoptimizePath EMPTY_PATH (demo_declaring true)) =
    Throw (RollupError (errorIllegalImportReassignment "y" "main.js") 50) /\
  deoptimizePath EMPTY_PATH (demo_x "const") =
    (Normal tt,
     {| this := this (demo_x "const"); world := world (demo_x "const");
        calls := [Variable_deoptimizePath 0%nat EMPTY_PATH] |}).
Proof.
  split.
  - destruct (deoptimizePath_reassignment (demo_declaring true)) as [Hthrow _].
    rewrite Hthrow; [reflexivity | vm_compute; reflexivity].
  - destruct (deoptimizePath_reassignment (demo_x "const")) as [_ Hcontained].
    rewrite Hcontained; [reflexivity | vm_compute; reflexivity].
Defined.

(** ** Consolidation of initializers *)

Lemma consolidation_happens_once_witness :
  calls (snd (include (demo_x "const"))) =
    [consolidateInitializers 0%nat; requestTreeshakingPass;
     includeVariableInModule 0%nat] /\
  calls (snd (include (snd (include (demo_x "const"))))) =
    calls (snd (include (demo_x "const"))).
Proof.
  destruct (consolidation_happens_once (H:=demo_collaborators) tt (demo_x "const") 0%nat)
    as (Hfirst & _ & Hlater); [reflexivity..|].
  split.
  - rewrite Hfirst. reflexivity.
  - destruct (Hlater (snd (include (demo_x "const"))) (snd (include (demo_x "const"))) tt)
      as [Hagain _]; [by left | apply rtc_refl |].
    rewrite Hagain. vm_compute. reflexivity.
Defined.

(** The claim C7 fails when the effect check comes first: the first
    inclusion of the identifier then consolidates nothing and requests no
    pass. *)
Lemma first_include_after_hasEffects_counterexample :
  included (this (snd (hasEffects (H:=demo_collaborators) tt (demo_x "const")))) = false /\
  calls (snd (include (snd (hasEffects (H:=demo_collaborators) tt (demo_x "const"))))) =
    calls (snd (hasEffects (H:=demo_collaborators) tt (demo_x "const")))
      ++ [includeVariableInModule 0%nat].
Proof. split; vm_compute; reflexivity. Qed.

(** ** Declarations *)

(** Declaring [y] with [let]: variable 2 is the new one, a
    [LocalVariable] declared at this identifier and of kind let, and the
    scope contains [y] afterwards, which it did not before. *)
Lemma declare_by_kind_witness :
  fst (declare "enum" UNKNOWN_EXPRESSION (demo_declaring true)) =
    Throw (InternalError "Internal Error: Unexpected identifier kind enum.") /\
  exists s', declare "let" UNKNOWN_EXPRESSION (demo_declaring true) = (Normal [2%nat], s') /\
             kind (variables (world s') 2%nat) = Some "let" /\
             variableClass (variables (world s') 2%nat) = LocalVariable /\
             declarations (variables (world s') 2%nat) = [demo_declaration] /\
             Scope_contains 0%nat "y" (world (demo_declaring true)) = false /\
             Scope_contains 0%nat "y" (world s') = true.
Proof.
  split.
  - destruct (declare_by_kind (demo_declaring true) "enum" UNKNOWN_EXPRESSION)
      as [Hthrow _].
    rewrite Hthrow; [reflexivity|]. apply (bool_decide_unpack _). vm_compute. exact I.
  - destruct (declare_by_kind (demo_declaring true) "let" UNKNOWN_EXPRESSION)
      as [_ Hdeclared].
    destruct Hdeclared as (s' & Hrun & Hkind & _ & Hscopes & Hclass & Hdecl & _).
    + apply (bool_decide_unpack _). vm_compute. exact I.
    + exists s'. split; [exact Hrun|]. split; [exact Hkind|].
      split; [exact Hclass|]. split; [exact Hdecl|].
      split; [vm_compute; reflexivity|].
      change (bool_decide ("y" ∈ scopes (world s') 0%nat) = true).
      rewrite Hscopes. vm_compute. reflexivity.
Defined.

Lemma declare_marks_initializers_witness :
  calls (snd (declare "var" UNKNOWN_EXPRESSION (demo_declaring true))) =
    [markInitializersForDeoptimization 2%nat] /\
  calls (snd (declare "var" UNKNOWN_EXPRESSION (demo_declaring false))) = [] /\
  calls (snd (declare "const" UNKNOWN_EXPRESSION (demo_declaring true))) = [].
Proof.
  split; [|split].
  - destruct (declare_marks_initializers (demo_declaring true) "var" UNKNOWN_EXPRESSION)
      as (Hon & _ & _); [apply (bool_decide_unpack _); vm_compute; exact I|].
    rewrite Hon; [reflexivity | reflexivity |]. eexists. split; reflexivity.
  - destruct (declare_marks_initializers (demo_declaring false) "var" UNKNOWN_EXPRESSION)
      as (_ & Hoff & _); [apply (bool_decide_unpack _); vm_compute; exact I|].
    rewrite Hoff; [reflexivity | reflexivity |]. intros t [= <-]. reflexivity.
  - destruct (declare_marks_initializers (demo_declaring true) "const" UNKNOWN_EXPRESSION)
      as (_ & _ & Hother); [apply (bool_decide_unpack _); vm_compute; exact I|].
    rewrite Hother; [reflexivity | discriminate].
Defined.

(** The claim C9 fails with the option [correctVarValueBeforeDeclaration]
    off: declaring a 'var' then marks nothing. *)
Lemma declare_var_without_option_counterexample :
  fst (declare "var" UNKNOWN_EXPRESSION (demo_declaring false)) = Normal [2%nat] /\
  calls (snd (declare "var" UNKNOWN_EXPRESSION (demo_declaring false))) = [].
Proof. split; vm_compute; reflexivity. Qed.

(** * Further properties of the class *)

(** ** The type test and the walk to the enclosing function *)

Lemma prefix_iff (p s : string) :
  String.prefix p s = true <-> exists t, s = (p ++ t)%string.
Proof.
  revert s; induction p as [|a p IH]; intros s.
  - split; [intros _; by exists s | by destruct s].
  - destruct s as [|b s]; simpl.
    + split; [done | by intros (t & ?)].
    + destruct (Ascii.ascii_dec a b) as [->|Hne].
      * rewrite IH. split; intros (t & Ht); exists t; [by rewrite Ht | by injection Ht].
      * split; [done|]. intros (t & Ht). injection Ht as ? ?. congruence.
Qed.

Lemma includes_iff (pat s : string) :
  includes pat s = true <-> exists a b, s = (a ++ pat ++ b)%string.
Proof.
  induction s as [|c s IH]; cbn [includes]; rewrite orb_true_iff, prefix_iff.
  - split.
    + intros [(t & Ht) | ?]; [|done]. by exists "", t.
    + intros (a & b & Hs). left. destruct a; [by exists b | done].
  - rewrite IH. split.
    + intros [(t & Ht) | (a & b & Hs)]; [by exists "", t|].
      exists (String c a), b. simpl. by rewrite Hs.
    + intros (a & b & Hs). destruct a as [|c' a]; simpl in Hs.
      * left. by exists b.
      * right. injection Hs as _ Hs. by exists a, b.
Qed.

(** X1.  The test [/^Program|Function/] accepts exactly the type tags
    that start with "Program" or have "Function" somewhere in them. *)
Theorem test_Program_or_Function_iff (s : string) :
  test_Program_or_Function s = true <->
  (exists t, s = ("Program" ++ t)%string) \/
  (exists a b, s = (a ++ "Function" ++ b)%string).
Proof.
  unfold test_Program_or_Function.
  by rewrite orb_true_iff, prefix_iff, includes_iff.
Qed.

(** X2.  [closestParentFunctionOrProgram] returns the first node of the
    chain, from the node itself upwards, whose type passes the test: the
    nodes before it fail the test, and asking again from the result gives
    the result.  Without such a node on the chain it returns nothing. *)
Theorem closestParentFunctionOrProgram_first (n : Node) :
  match closestParentFunctionOrProgram n with
  | Some a =>
      exists before above,
        ancestors n = before ++ a :: above /\
        Forall (fun x => test_Program_or_Function (type x) = false) before /\
        test_Program_or_Function (type a) = true /\
        closestParentFunctionOrProgram a = Some a
  | None =>
      Forall (fun x => test_Program_or_Function (type x) = false) (ancestors n)
  end.
Proof.
  induction n as [i t s | i t s p IH] using Node_chain_ind; simpl.
  - destruct (test_Program_or_Function t) eqn:Htest.
    + exists [], []. repeat split; [done|done|]. simpl. by rewrite Htest.
    + by repeat constructor.
  - destruct (test_Program_or_Function t) eqn:Htest.
    + exists [], (ancestors p). repeat split; [done|done|]. simpl. by rewrite Htest.
    + destruct (closestParentFunctionOrProgram p) as [a|].
      * destruct IH as (before & above & Hchain & Hbefore & Ha & Hagain).
        exists (mkNode i t s (Some p) :: before), above.
        repeat split; [by rewrite Hchain | by constructor | done | done].
      * by constructor.
Qed.

Section Further.

Context `{Collaborators}.

Local Abbreviation World := (WorldOver ScopeStore).

(** ** The purity registry *)

(** X3.  Purity is inherited along a path: when an identifier is pure at a
    path, it is pure at every path that extends it. *)
Theorem isPureFunction_extends (i : Identifier) (p q : ObjectPath) :
  isPureFunction i p = true -> isPureFunction i (p ++ q) = true.
Proof.
  unfold isPureFunction. rewrite !isPureFunction_walk_prefix.
  intros (p' & Hprefix & Hflag). exists p'. split; [|done].
  by apply prefix_app_r.
Qed.

Lemma isPureFunction_walk_symbol (current : option PureFunctions)
    (p q : ObjectPath) (k : ObjectPathKey) :
  (forall s, k <> StringKey s) ->
  isPureFunction_walk current (p ++ k :: q) = isPureFunction_walk current p.
Proof.
  intros Hk. revert current; induction p as [|segment p IH]; intros current; simpl.
  - destruct current as [registry|]; [|done].
    destruct (truthy (pureFunctionKey registry)); [done|].
    destruct k; [by destruct (Hk s) | | |]; simpl; apply isPureFunction_walk_None.
  - destruct current as [registry|]; [|done].
    destruct (truthy (pureFunctionKey registry)); [done | apply IH].
Qed.

(** X4.  A key of a path that is no string (an unknown key, an unknown
    integer) ends the walk through the registry: the path is pure exactly
    when the part before that key is. *)
Theorem isPureFunction_symbol_key (i : Identifier) (p q : ObjectPath) (k : ObjectPathKey) :
  (forall s, k <> StringKey s) ->
  isPureFunction i (p ++ k :: q) = isPureFunction i p.
Proof. intros Hk. by apply isPureFunction_walk_symbol. Qed.

(** ** Effects of interactions: edges *)

(** X6.  An assignment to the identifier itself (the empty path) is asked
    of the variable directly: neither the purity registry nor the
    temporal dead zone is consulted, no verdict is computed, and the state
    stays as it is; without a variable the property read throws. *)
Theorem assignment_at_empty_path (s : State) (interaction : NodeInteraction)
    (ctx : HasEffectsContext) :
  interaction_type interaction = INTERACTION_ASSIGNED ->
  hasEffectsOnInteractionAtPath EMPTY_PATH interaction ctx s =
    match variable (this s) with
    | Some r =>
        (Normal (Variable_hasEffectsOnInteractionAtPath (world s) r EMPTY_PATH
                   interaction ctx), s)
    | None => (Throw TypeError, s)
    end.
Proof.
  intros Hkind. unfold hasEffectsOnInteractionAtPath, and_then, get_this. simpl.
  rewrite Hkind. simpl. unfold ret. by destruct (variable (this s)).
Qed.

(** X7.  On an identifier without a variable, an access has no effects
    and throws nothing, whereas a call that the registry does not declare
    pure throws on the missing variable. *)
Theorem interactions_on_unbound_identifier (s : State) (path : ObjectPath)
    (interaction : NodeInteraction) (ctx : HasEffectsContext) :
  variable (this s) = None ->
  (interaction_type interaction = INTERACTION_ACCESSED ->
   hasEffectsOnInteractionAtPath path interaction ctx s = (Normal false, s)) /\
  (interaction_type interaction = INTERACTION_CALLED ->
   isPureFunction (this s) path = false ->
   isTDZAccess (this s) <> Some true ->
   fst (hasEffectsOnInteractionAtPath path interaction ctx s) = Throw TypeError).
Proof.
  intros Hvar.
  split; intros Hkind; unfold hasEffectsOnInteractionAtPath;
    unfold and_then at 1; unfold get_this; simpl; rewrite Hkind.
  - by rewrite Hvar.
  - intros -> Hcache. simpl.
    destruct (getVariableRespectingTDZ_runs s) as (tdz & Htdz & Hrun).
    unfold and_then at 1. rewrite Hrun, Hvar.
    destruct tdz; [|done].
    destruct (isTDZAccess (this s)) as [[|]|] eqn:Hc; [done | |].
    + by rewrite (isPossibleTDZ_cached s false Hc) in Htdz.
    + unfold isPossibleTDZ, and_then, get_this in Htdz. simpl in Htdz.
      by rewrite Hc, Hvar in Htdz.
Qed.

(** X15.  [deoptimizePath] with a path that is not empty never throws,
    whether or not the scope contains the name: it only hands the path to
    the variable, if there is one. *)
Theorem deoptimizePath_of_property (s : State) (path : ObjectPath) :
  path <> [] ->
  deoptimizePath path s =
    (Normal tt,
     {| this := this s; world := world s;
        calls := calls s ++ match variable (this s) with
                            | Some r => [Variable_deoptimizePath r path]
                            | None => []
                            end |}).
Proof.
  intros Hpath. destruct path as [|segment rest]; [done|].
  unfold deoptimizePath, and_then, get_this, get_world, ret, invoke. simpl.
  destruct (variable (this s)); [done|]. by rewrite app_nil_r, State_eta.
Qed.

(** ** Repeating a method *)

(** X8.  [include] is idempotent: a second inclusion of a node changes
    nothing and calls nothing. *)
Theorem include_again (s : State) :
  include (snd (include s)) = (Normal tt, snd (include s)).
Proof.
  rewrite (include_runs s). simpl. rewrite include_runs. simpl.
  unfold first_deoptimization_calls, inclusion_calls. simpl.
  rewrite !app_nil_r. by destruct s as [[] ? ?].
Qed.

(** X9.  An effect check leaves the identifier in a state in which the
    same check answers the same and changes nothing more: the verdict is
    in the cache and the deoptimization is done. *)
Theorem hasEffects_again (ctx : HasEffectsContext) (s : State) :
  hasEffects ctx (snd (hasEffects ctx s)) =
    (fst (hasEffects ctx s), snd (hasEffects ctx s)).
Proof.
  destruct (hasEffects_runs ctx s) as (tdz & _ & ->). simpl.
  match goal with |- hasEffects ctx ?s0 = _ => set (s' := s0) end.
  destruct (hasEffects_runs ctx s') as (tdz' & Htdz' & ->).
  rewrite (isPossibleTDZ_cached s' tdz eq_refl) in Htdz'. injection Htdz' as <-.
  unfold s', first_deoptimization_calls. simpl. rewrite app_nil_r.
  unfold global_access_has_effects, option_unknownGlobalSideEffects, isPureFunction.
  simpl. by destruct s as [[] ? ?].
Qed.

Lemma bind_runs (s : State) :
  bind s =
    if bool_decide (variable (this s) = None)
       && isReference (node (this s)) (parent (node (this s)))
    then
      let '(r, w) := Scope_findVariable (scope (this s)) (name (this s)) (world s) in
      (Normal tt,
       {| this := with_variable (Some r) (this s); world := w;
          calls := calls s ++ [addReference r (node (this s))] |})
    else (Normal tt, s).
Proof.
  unfold bind, and_then at 1, get_this. simpl.
  destruct (bool_decide (variable (this s) = None)
            && isReference (node (this s)) (parent (node (this s)))); [|done].
  unfold register, and_then, get_world, put_world, assign, get_this, put_this,
    invoke, ret. simpl.
  by destruct (Scope_findVariable (scope (this s)) (name (this s)) (world s)).
Qed.

(** X16.  [bind] is idempotent: binding twice is binding once. *)
Theorem bind_again (s : State) :
  and_then bind (fun _ => bind) s = bind s.
Proof.
  unfold and_then. rewrite (bind_runs s).
  destruct (bool_decide (variable (this s) = None)
            && isReference (node (this s)) (parent (node (this s)))) eqn:Hcond.
  - destruct (Scope_findVariable (scope (this s)) (name (this s)) (world s)) as [r w].
    by rewrite bind_runs.
  - rewrite bind_runs. by rewrite Hcond.
Qed.

(** X17.  An identifier that was declared is not resolved again: [bind]
    after [declare] does nothing. *)
Theorem bind_after_declare (s : State) (k : string) (init : ExpressionEntity) :
  k ∈ recognized_kinds ->
  bind (snd (declare k init s)) = (Normal tt, snd (declare k init s)).
Proof.
  intros Hk. rewrite (declare_runs s k init Hk).
  destruct (registration (this s) k init (world s)) as [r w]. simpl.
  by rewrite bind_runs.
Qed.

(** ** Queries outside the dead zone, and around a declaration *)

(** X18.  Without a positive verdict the value queries are forwarded to
    the variable: [getLiteralValueAtPath] returns its answer, and
    [getReturnExpressionWhenCalledAtPath] returns its expression, pure
    when the variable or the purity registry says so. *)
Theorem value_queries_forwarded (s : State) (r : VarRef) (path : ObjectPath)
    (interaction : NodeInteraction) (recursionTracker : PathTracker)
    (origin : DeoptimizableEntity) :
  fst (isPossibleTDZ s) = Normal false ->
  variable (this s) = Some r ->
  fst (getLiteralValueAtPath path recursionTracker origin s) =
    Normal (Variable_getLiteralValueAtPath (world s) r path recursionTracker origin) /\
  fst (getReturnExpressionWhenCalledAtPath path interaction recursionTracker origin s) =
    Normal (fst (Variable_getReturnExpressionWhenCalledAtPath (world s) r path
                   interaction recursionTracker origin),
            snd (Variable_getReturnExpressionWhenCalledAtPath (world s) r path
                   interaction recursionTracker origin)
            || isPureFunction (this s) path).
Proof.
  intros Htdz Hvar. destruct (getVariableRespectingTDZ_runs s) as (tdz & Htdz' & Hrun).
  rewrite Htdz in Htdz'. injection Htdz' as <-.
  unfold getLiteralValueAtPath, getReturnExpressionWhenCalledAtPath.
  split; unfold and_then at 1; rewrite Hrun, Hvar; simpl; [done|].
  unfold and_then, get_world, get_this, ret. simpl.
  by destruct (Variable_getReturnExpressionWhenCalledAtPath (world s) r path
                 interaction recursionTracker origin).
Qed.

(** X14.  After [markDeclarationReached], a first query of any identifier
    of that variable is decided by position alone: the verdict is positive
    exactly when the variable is a [LocalVariable] of a kind with a dead
    zone and the identifier is placed before the one declaration in the
    same function or program. *)
Theorem first_query_after_declaration_reached (s : State) (r : VarRef)
    (i : Identifier) (cs : list Call) :
  variable (this s) = Some r ->
  isTDZAccess i = None ->
  variable i = Some r ->
  fst (isPossibleTDZ {| this := i; world := world (snd (markDeclarationReached s));
                        calls := cs |}) =
    Normal (instanceof (variables (world s) r) LocalVariable
            && kind_in_tdzVariableKinds (kind (variables (world s) r))
            && accessed_before_declaration i (variables (world s) r)).
Proof.
  intros Hvar Hcache Hi.
  unfold markDeclarationReached, assign_variable, and_then, get_this, get_world,
    put_world, non_null, ret. rewrite Hvar. simpl.
  unfold isPossibleTDZ, and_then, get_this, get_world. simpl.
  rewrite Hcache, Hi. simpl. rewrite Nat.eqb_refl.
  unfold accessed_before_declaration, instanceof. simpl.
  pose proof (tdz_kind_truthy (kind (variables (world s) r))) as Htruthy.
  destruct (variableClass (variables (world s) r)); simpl; try done;
    destruct (kind_in_tdzVariableKinds (kind (variables (world s) r))); simpl;
    rewrite ?orb_true_r; try done.
  rewrite (Htruthy eq_refl). simpl.
  match goal with |- context [if ?c then _ else _] => by destruct c end.
Qed.

(** X19.  Position decides a first query only for a variable with exactly
    one declaration, an identifier that starts before it, and both in the
    same function or program.  For a variable declared more than once, an
    identifier at or after the declaration (the identifier of the
    declaration itself included) or one across a function boundary, the
    verdict is positive exactly when the variable is a [LocalVariable] of
    a kind with a dead zone whose declaration was not reached yet. *)
Theorem first_query_without_position (s : State) (r : VarRef) :
  isTDZAccess (this s) = None ->
  variable (this s) = Some r ->
  (length (declarations (variables (world s) r)) <> 1%nat \/
   exists decl, declarations (variables (world s) r) = [decl] /\
     (start decl <= start (node (this s)) \/
      same_node (closestParentFunctionOrProgram (node (this s)))
                (closestParentFunctionOrProgram decl) = false)) ->
  fst (isPossibleTDZ s) =
    Normal (instanceof (variables (world s) r) LocalVariable
            && kind_in_tdzVariableKinds (kind (variables (world s) r))
            && negb (initReached (variables (world s) r))).
Proof.
  intros Hcache Hvar Hposition.
  assert (accessed_before_declaration (this s) (variables (world s) r) = false) as Hno.
  { apply not_true_is_false. rewrite accessed_before_declaration_iff.
    intros (decl & Hdecl & Hbefore & Hsame).
    destruct Hposition as [Hlength | (decl' & Hdecl' & [Hafter | Hother])].
    - by rewrite Hdecl in Hlength.
    - rewrite Hdecl in Hdecl'. injection Hdecl' as <-. lia.
    - rewrite Hdecl in Hdecl'. injection Hdecl' as <-. congruence. }
  unfold isPossibleTDZ, and_then, get_this, get_world. simpl.
  rewrite Hcache, Hvar. simpl. rewrite Hno.
  pose proof (tdz_kind_truthy (kind (variables (world s) r))) as Htruthy.
  destruct (instanceof (variables (world s) r) LocalVariable); simpl; [|done].
  destruct (kind_in_tdzVariableKinds (kind (variables (world s) r))); simpl;
    rewrite ?orb_true_r; [|done].
  rewrite (Htruthy eq_refl). simpl.
  by destruct (initReached (variables (world s) r)).
Qed.

(** ** What no method undoes *)

Lemma isPossibleTDZ_keeps_stable (P : Identifier -> Prop) :
  (forall i b, P i -> P (with_isTDZAccess (Some b) i)) ->
  keeps P isPossibleTDZ.
Proof.
  intros HP s Hs. destruct (isPossibleTDZ_runs s) as [b ->]. by apply HP.
Qed.

Ltac keeps_stable :=
  repeat match goal with
         | |- keeps _ (and_then _ _) => apply keeps_bind; [|intros ?]
         | |- keeps _ (andM _ _) => apply keeps_andM
         | |- keeps _ isPossibleTDZ => by apply isPossibleTDZ_keeps_stable
         | |- keeps _ (assign _) => apply keeps_assign; by auto
         | |- keeps _ (if ?c then _ else _) => destruct c
         | |- keeps _ (match ?o with _ => _ end) => destruct o
         | |- keeps _ _ =>
             first [ apply keeps_ret | apply keeps_throw | apply keeps_get_this
                   | apply keeps_get_world | apply keeps_put_world
                   | apply keeps_invoke | apply keeps_assign_variable
                   | apply keeps_non_null | apply keeps_register ]
         end.

(** A property of identifiers that the four assignments of the class
    keep is kept by every method. *)
Lemma method_keeps_stable (P : Identifier -> Prop) :
  (forall i b, P i -> P (with_isTDZAccess (Some b) i)) ->
  (forall i, P i -> P (with_deoptimized true i)) ->
  (forall i, P i -> P (with_included true i)) ->
  (forall i r, P i -> P (with_variable (Some r) i)) ->
  forall (A : Type) (m : M A), method A m -> keeps P m.
Proof.
  intros Hcache Hdeopt Hincl Hvar A m [];
    unfold addExportedVariables, bind, deoptimizeThisOnInteractionAtPath,
      includeCallArguments, declare, deoptimizePath, getLiteralValueAtPath,
      getReturnExpressionWhenCalledAtPath, hasEffects, hasEffectsOnInteractionAtPath,
      include, markDeclarationReached, getVariableRespectingTDZ, applyDeoptimizations,
      disallowImportReassignment, context_error, kind_is_not_var;
    keeps_stable.
Qed.

(** X12.  No method of the class undoes an inclusion or a binding: a node
    that is included stays included, and an identifier that has a variable
    keeps having one. *)
Theorem methods_keep_inclusion_and_binding (A : Type) (m : M A) (s : State) :
  method A m ->
  (included (this s) = true -> included (this (snd (m s))) = true) /\
  (is_Some (variable (this s)) -> is_Some (variable (this (snd (m s))))).
Proof.
  intros Hm. split.
  - apply (method_keeps_stable (fun i => included i = true)); try done; by intros [].
  - apply (method_keeps_stable (fun i => is_Some (variable i))); try done;
      by intros [].
Qed.

(** X13.  No method of the class changes what the AST gave the
    identifier: its node (type, position, parent), its name, its scope and
    its context. *)
Theorem methods_keep_identity (A : Type) (m : M A) (s : State) :
  method A m -> same_identity (this s) (this (snd (m s))).
Proof.
  intros Hm.
  apply (method_keeps_stable (same_identity (this s))); try done;
    try (by intros [] ? ?); by intros [] ?.
Qed.

(** ** What the asking methods leave alone *)

Lemma same_world_and_then {A B} (m : M A) (k : A -> M B) :
  after same_world m -> (forall a, after same_world (k a)) ->
  after same_world (and_then m k).
Proof.
  intros Hm Hk s. specialize (Hm s). unfold and_then, same_world in *.
  destruct (m s) as [[a|e] s']; simpl in *; [|done].
  by rewrite <- Hm, (Hk a s').
Qed.

Lemma same_world_isPossibleTDZ : after same_world isPossibleTDZ.
Proof. intros s. by destruct (isPossibleTDZ_runs s) as [b ->]. Qed.

Ltac same_world_parts :=
  repeat match goal with
         | |- after same_world (and_then _ _) => apply same_world_and_then; [|intros ?]
         | |- after same_world isPossibleTDZ => apply same_world_isPossibleTDZ
         | |- after same_world (andM ?a _) => destruct a; unfold andM
         | |- after same_world (if ?c then _ else _) => destruct c
         | |- after same_world (match ?o with _ => _ end) => destruct o
         | |- after same_world (non_null ?o) => by destruct o
         | |- after same_world _ => by intros ?
         end.

(** X10.  In the methods that ask or delegate, the statements of the
    class itself assign no field of a variable and call no scope method
    that resolves or registers one: apart from the calls they delegate,
    which the log records, they leave the world as it was. *)
Theorem readers_leave_the_world (A : Type) (m : M A) (s : State) :
  reader A m -> world (snd (m s)) = world s.
Proof.
  intros Hm. revert s. change (after same_world m).
  destruct Hm;
    unfold addExportedVariables, deoptimizeThisOnInteractionAtPath,
      includeCallArguments, deoptimizePath, getLiteralValueAtPath,
      getReturnExpressionWhenCalledAtPath, hasEffects, hasEffectsOnInteractionAtPath,
      include, getVariableRespectingTDZ, applyDeoptimizations,
      disallowImportReassignment, context_error, kind_is_not_var;
    same_world_parts.
Qed.

End Further.

(** ** Rendering *)

Section RenderingProperties.

Context `{Collaborators}.

Variable GetPropertyAccess : Type.
Variable node_end : Node -> Z.
Variable Variable_getName : WorldOver ScopeStore -> VarRef -> GetPropertyAccess -> string.
Variable CallExpression : string.

Local Abbreviation rendered :=
  (render GetPropertyAccess node_end Variable_getName CallExpression).

(** X20.  [render] edits nothing exactly when the identifier has no
    variable, or its variable is rendered under the identifier's own name
    and the identifier is not an [eval] that is the callee of a rendered
    call expression. *)
Theorem render_silent_iff (i : Identifier) (w : WorldOver ScopeStore)
    (getPropertyAccess : GetPropertyAccess) (options : NodeRenderOptions) :
  rendered i w getPropertyAccess options = [] <->
  variable i = None \/
  exists r, variable i = Some r /\
    Variable_getName w r getPropertyAccess = name i /\
    ~ (name i = "eval" /\
       renderedParentType options = Some CallExpression /\
       isCalleeOfRenderedParent options = true).
Proof.
  unfold render. destruct (variable i) as [r|]; [|naive_solver].
  cbv zeta. destruct (String.eqb_spec (Variable_getName w r getPropertyAccess) (name i))
    as [Hsame|Hrenamed]; simpl.
  - rewrite Hsame. split.
    + intros Hnone. right. exists r. repeat split; try done.
      intros (Heval & Hparent & Hcallee). rewrite Heval, Hparent, Hcallee in Hnone.
      by rewrite bool_decide_eq_true_2 in Hnone.
    + intros [? | (r' & _ & _ & Hnot)]; [done|].
      destruct (String.eqb_spec (name i) "eval"); simpl; [|done].
      destruct (bool_decide (renderedParentType options = Some CallExpression)) eqn:Hp;
        simpl; [|done].
      destruct (isCalleeOfRenderedParent options) eqn:Hc; [|done].
      apply bool_decide_eq_true_1 in Hp. by destruct Hnot.
  - split; [done|]. intros [? | (r' & [= <-] & ? & _)]; done.
Qed.

(** X11.  [render] writes on the identifier and nowhere else: each of its
    edits is the overwrite of exactly the span of the identifier, from its
    start to its end, with the rendered name, or the insertion at its
    start of the identifier's own name as a property key, or the insertion
    at its start of "0, ". *)
Theorem render_edits_within_identifier (i : Identifier) (w : WorldOver ScopeStore)
    (getPropertyAccess : GetPropertyAccess) (options : NodeRenderOptions) (e : Edit) :
  e ∈ rendered i w getPropertyAccess options ->
  exists r, variable i = Some r /\
    (e = overwrite (start (node i)) (node_end (node i))
           (Variable_getName w r getPropertyAccess) \/
     e = prependRight (start (node i)) (name i ++ ": ")%string \/
     e = appendRight (start (node i)) "0, ").
Proof.
  unfold render. destruct (variable i) as [r|]; [|by intros ?%elem_of_nil].
  cbv zeta. rewrite elem_of_app. intros Hin. exists r. split; [done|].
  destruct Hin as [Hin | Hin].
  - destruct (negb _); [|by apply elem_of_nil in Hin].
    apply elem_of_cons in Hin as [-> | Hin]; [by left|].
    destruct (isShorthandProperty options); [|by apply elem_of_nil in Hin].
    apply list_elem_of_singleton in Hin as ->. right. by left.
  - destruct (_ && _); [|by apply elem_of_nil in Hin].
    apply list_elem_of_singleton in Hin as ->. right. by right.
Qed.

End RenderingProperties.

(** * The further properties on the example module *)

Lemma isPureFunction_extends_witness :
  isPureFunction (this (demo_global "console" true))
    ([StringKey "log"] ++ [StringKey "apply"; UnknownKey]) = true.
Proof.
  apply (isPureFunction_extends (this (demo_global "console" true))).
  vm_compute. reflexivity.
Defined.

Lemma isPureFunction_symbol_key_witness :
  isPureFunction (this (demo_global "console" true))
    ([] ++ UnknownKey :: [StringKey "log"]) = false.
Proof.
  rewrite (isPureFunction_symbol_key (this (demo_global "console" true)) []
             [StringKey "log"] UnknownKey).
  - vm_compute. reflexivity.
  - intros s. discriminate.
Defined.

Lemma isPureFunction_suppresses_effects_witness :
  hasEffectsOnInteractionAtPath (H:=demo_collaborators) EMPTY_PATH
    {| interaction_type := INTERACTION_CALLED; thisArg := None; args := [] |} tt demo_foo =
    (Normal false, demo_foo).
Proof.
  apply (isPureFunction_suppresses_effects (H:=demo_collaborators) demo_foo).
  - vm_compute. reflexivity.
  - discriminate.
Defined.

Lemma assignment_at_empty_path_witness :
  hasEffectsOnInteractionAtPath (H:=demo_collaborators) EMPTY_PATH
    {| interaction_type := INTERACTION_ASSIGNED; thisArg := None; args := [] |} tt demo_foo =
    (Normal true, demo_foo).
Proof.
  rewrite (assignment_at_empty_path (H:=demo_collaborators) demo_foo); reflexivity.
Defined.

Lemma interactions_on_unbound_identifier_witness :
  hasEffectsOnInteractionAtPath (H:=demo_collaborators) EMPTY_PATH
    NODE_INTERACTION_UNKNOWN_ACCESS tt (demo_declaring true) =
    (Normal false, demo_declaring true) /\
  fst (hasEffectsOnInteractionAtPath (H:=demo_collaborators) EMPTY_PATH
         {| interaction_type := INTERACTION_CALLED; thisArg := None; args := [] |} tt
         (demo_declaring true)) = Throw TypeError.
Proof.
  split.
  - apply (interactions_on_unbound_identifier (H:=demo_collaborators) (demo_declaring true));
      reflexivity.
  - apply (interactions_on_unbound_identifier (H:=demo_collaborators) (demo_declaring true));
      [reflexivity | reflexivity | vm_compute; reflexivity | discriminate].
Defined.

Lemma deoptimizePath_of_property_witness :
  fst (deoptimizePath [StringKey "p"] (demo_declaring true)) = Normal tt.
Proof.
  rewrite (deoptimizePath_of_property (demo_declaring true) [StringKey "p"]);
    [reflexivity | discriminate].
Defined.

Lemma bind_after_declare_witness :
  variable (this (snd (bind (snd (declare "let" UNKNOWN_EXPRESSION (demo_declaring true))))))
    = Some 2%nat.
Proof.
  rewrite (bind_after_declare (demo_declaring true) "let" UNKNOWN_EXPRESSION).
  - vm_compute. reflexivity.
  - apply (bool_decide_unpack _). vm_compute. exact I.
Defined.

Lemma value_queries_forwarded_witness :
  fst (getLiteralValueAtPath (H:=demo_collaborators) EMPTY_PATH tt tt (demo_x_in_f true)) =
    Normal (KnownValue 1) /\
  fst (getReturnExpressionWhenCalledAtPath (H:=demo_collaborators) EMPTY_PATH
         {| interaction_type := INTERACTION_CALLED; thisArg := None; args := [] |}
         tt tt (demo_x_in_f true)) =
    Normal (VariableEntity 0%nat, false).
Proof.
  apply (value_queries_forwarded (H:=demo_collaborators) (demo_x_in_f true) 0%nat);
    [vm_compute; reflexivity | reflexivity].
Defined.

Lemma first_query_after_declaration_reached_witness :
  fst (isPossibleTDZ
         {| this := this (demo_x_in_f false);
            world := world (snd (markDeclarationReached (demo_x "const")));
            calls := [] |}) = Normal false /\
  fst (isPossibleTDZ
         {| this := this (demo_x "const");
            world := world (snd (markDeclarationReached (demo_x "const")));
            calls := [] |}) = Normal true.
Proof.
  split.
  - rewrite (first_query_after_declaration_reached (demo_x "const") 0%nat);
      [vm_compute; reflexivity | reflexivity..].
  - rewrite (first_query_after_declaration_reached (demo_x "const") 0%nat);
      [vm_compute; reflexivity | reflexivity..].
Defined.

(** The identifier of the declaration of [x] (at the declaration) and the
    reference inside [f] (across a function boundary), before and after
    the declaration was reached. *)
Lemma first_query_without_position_witness :
  fst (isPossibleTDZ (demo_x_declaration false)) = Normal true /\
  fst (isPossibleTDZ (demo_x_in_f true)) = Normal false.
Proof.
  split.
  - rewrite (first_query_without_position (demo_x_declaration false) 0%nat);
      [vm_compute; reflexivity | reflexivity | reflexivity |].
    right. exists demo_declaration. split; [reflexivity|]. left. vm_compute. discriminate.
  - rewrite (first_query_without_position (demo_x_in_f true) 0%nat);
      [vm_compute; reflexivity | reflexivity | reflexivity |].
    right. exists demo_declaration. split; [reflexivity|]. right. vm_compute. reflexivity.
Defined.

Lemma methods_keep_inclusion_and_binding_witness :
  included (this (snd (hasEffects (H:=demo_collaborators) tt
                         (snd (include (demo_x "const")))))) = true /\
  is_Some (variable (this (snd (markDeclarationReached (demo_x "const"))))).
Proof.
  split.
  - apply (methods_keep_inclusion_and_binding (H:=demo_collaborators) _
             (hasEffects (H:=demo_collaborators) tt) (snd (include (demo_x "const"))));
      [apply method_hasEffects | reflexivity].
  - apply (methods_keep_inclusion_and_binding (H:=demo_collaborators) _
             markDeclarationReached (demo_x "const"));
      [apply method_markDeclarationReached | by eexists].
Defined.

Lemma methods_keep_identity_witness :
  same_identity (this (demo_declaring true))
    (this (snd (declare "var" UNKNOWN_EXPRESSION (demo_declaring true)))).
Proof.
  apply (methods_keep_identity (H:=demo_collaborators) _
           (declare "var" UNKNOWN_EXPRESSION) (demo_declaring true)).
  apply method_declare.
Defined.

Lemma readers_leave_the_world_witness :
  world (snd (include (demo_x "const"))) = world (demo_x "const").
Proof.
  apply (readers_leave_the_world (H:=demo_collaborators) _ include (demo_x "const")).
  apply reader_include.
Defined.

(** The shorthand property [{ x }] whose variable is rendered as [x$1]
    becomes [{ x: x$1 }]: the identifier, from 12 to 13, is overwritten
    and its key is put in front of it. *)
Lemma render_edits_within_identifier_witness :
  render (H:=demo_collaborators) unit (fun n => start n + 1) (fun _ _ _ => "x$1")
    "CallExpression" (this (demo_x "const")) (world (demo_x "const")) tt
    {| renderedParentType := Some "Property"; isCalleeOfRenderedParent := false;
       isShorthandProperty := true |} =
    [overwrite 12 13 "x$1"; prependRight 12 "x: "] /\
  Forall (fun e => e = overwrite 12 13 "x$1" \/ e = prependRight 12 "x: " \/
                   e = appendRight 12 "0, ")
    (render (H:=demo_collaborators) unit (fun n => start n + 1) (fun _ _ _ => "x$1")
       "CallExpression" (this (demo_x "const")) (world (demo_x "const")) tt
       {| renderedParentType := Some "Property"; isCalleeOfRenderedParent := false;
          isShorthandProperty := true |}).
Proof.
  split; [vm_compute; reflexivity|].
  apply Forall_forall. intros e He.
  destruct (render_edits_within_identifier (H:=demo_collaborators) unit
              (fun n => start n + 1) (fun _ _ _ => "x$1") "CallExpression"
              (this (demo_x "const")) (world (demo_x "const")) tt _ e He)
    as (r & _ & Hcases).
  exact Hcases.
Defined.
